(** * Unicode-safe image I/O wrappers ([modules/__init__.py])

    The module defines two functions, [imread_unicode] and
    [imwrite_unicode], that route image files through in-memory buffers so
    that a path never crosses the codec boundary.  Both are straight-line
    Python: they call into [os.path], [numpy] and [cv2] and never catch an
    exception.  The development below embeds them as programs over an
    explicit interface of primitive calls, gives the interface a semantics
    by a handler over a world, and proves the properties of the wrappers
    for every handler. *)

From Stdlib Require Import ZArith List Lia Bool.
From Stdlib Require Strings.Byte.
From stdpp Require Import base option list strings gmap.

Local Open Scope Z_scope.

(** ** Text

    A Python [str] is a sequence of Unicode code points. *)

Module Str.

Definition char := N.
Abbreviation str := (list char).

(** ASCII literals of the source, by code point. *)
Definition of_ascii (s : string) : str :=
  map Ascii.N_of_ascii (String.list_ascii_of_string s).

Definition slash : char := 47%N.
Definition backslash : char := 92%N.
Definition dot : char := 46%N.

(** [".png"], the default extension of [imwrite_unicode]. *)
Definition dot_png : str := Eval cbv in of_ascii ".png".

(** [s.rfind(c)] for a one-character needle: the highest index holding
    [c], or [-1]. *)
Fixpoint rfind_from (c : char) (s : str) (i last : Z) : Z :=
  match s with
  | [] => last
  | x :: s' => rfind_from c s' (i + 1) (if N.eqb x c then i else last)
  end.

Definition rfind (s : str) (c : char) : Z := rfind_from c s 0 (-1).

(** [s[lo:hi]] for [0 <= lo]; the slices taken by [_splitext] never have a
    negative bound. *)
Definition slice (s : str) (lo hi : Z) : str :=
  take (Z.to_nat (hi - lo)) (drop (Z.to_nat lo) s).

(** [s[:i]] and [s[i:]] for [0 <= i]. *)
Definition slice_to (s : str) (i : Z) : str := take (Z.to_nat i) s.
Definition slice_from (s : str) (i : Z) : str := drop (Z.to_nat i) s.

(** Truth value of a [str]: non-empty. *)
Definition truthy (s : str) : bool :=
  match s with [] => false | _ :: _ => true end.

Definition eqb (a b : str) : bool := bool_decide (a = b).

End Str.

Import Str.

(** ** [os.path.splitext]

    [os.path] is [posixpath] or [ntpath] depending on the platform; both
    delegate to [genericpath._splitext], transcribed here from the Python
    standard library (it is not part of the repository). *)

Module OsPath.

Inductive flavour := posix | nt.

(** The [while filenameIndex < dotIndex] loop that skips leading dots.
    [n] counts the iterations left, [dotIndex - filenameIndex].  The
    result is [Some] of the pair the loop returns from inside its body,
    [None] when the loop runs to its end. *)
Fixpoint skip_leading_dots (p : str) (extsep : char) (dotIndex filenameIndex : Z)
    (n : nat) : option (str * str) :=
  match n with
  | O => None
  | S n' =>
      if negb (Str.eqb (slice p filenameIndex (filenameIndex + 1)) [extsep])
      then Some (slice_to p dotIndex, slice_from p dotIndex)
      else skip_leading_dots p extsep dotIndex (filenameIndex + 1) n'
  end.

Definition _splitext (p : str) (sep : char) (altsep : option char) (extsep : char)
    : str * str :=
  let sepIndex := rfind p sep in
  let sepIndex :=
    match altsep with
    | Some a => Z.max sepIndex (rfind p a)
    | None => sepIndex
    end in
  let dotIndex := rfind p extsep in
  let in_loop :=
    if dotIndex >? sepIndex then
      let filenameIndex := sepIndex + 1 in
      skip_leading_dots p extsep dotIndex filenameIndex
        (Z.to_nat (dotIndex - filenameIndex))
    else None in
  match in_loop with
  | Some r => r
  | None => (p, slice_to p 0)
  end.

Definition splitext (os : flavour) (p : str) : str * str :=
  match os with
  | posix => _splitext p slash None dot
  | nt => _splitext p backslash (Some slash) dot
  end.

(** The characters a flavour takes for directory separators: [sep] and
    [altsep]. *)
Definition is_sep (os : flavour) (c : char) : bool :=
  match os with
  | posix => N.eqb c slash
  | nt => N.eqb c backslash || N.eqb c slash
  end.

(** [sepIndex] of [_splitext] for a flavour: the index of the last
    separator, [-1] without one. *)
Definition sep_index (os : flavour) (p : str) : Z :=
  match os with
  | posix => rfind p slash
  | nt => Z.max (rfind p backslash) (rfind p slash)
  end.

End OsPath.

Import OsPath.

(** ** The primitives the wrappers call

    Arrays are Python objects: the wrappers receive them, hand them on and
    return them without ever looking inside, so the embedding is
    parametric in the type [arr] of array handles. *)

Module Prim.

(** [cv2.IMREAD_COLOR], the default of [imread_unicode]'s [flags]. *)
Definition IMREAD_COLOR : Z := 1.

Section Calls.
Context {arr : Type}.

Inductive call : Type :=
| Fromfile (path : str)                                (* np.fromfile(path, dtype=np.uint8) *)
| Imdecode (buf : arr) (flags : Z)                     (* cv2.imdecode(buf, flags) *)
| Imencode (ext : str) (img : arr) (params : list Z)   (* cv2.imencode(ext, img, params) *)
| Tofile (a : arr) (path : str).                       (* a.tofile(path) *)

(** What a call hands back when it does not raise.  [cv2.imdecode] gives
    [None] for bytes it cannot decode; [cv2.imencode] gives the pair
    [(retval, buf)]; [tofile] gives [None], of which nothing is used. *)
Definition resp (c : call) : Type :=
  match c with
  | Fromfile _ => arr
  | Imdecode _ _ => option arr
  | Imencode _ _ _ => (bool * arr)%type
  | Tofile _ _ => unit
  end.

(** A straight-line program: a result, or a call and what follows it. *)
Inductive prog (A : Type) : Type :=
| Ret (a : A)
| Do (c : call) (k : resp c -> prog A).

Fixpoint bind {A B : Type} (m : prog A) (f : A -> prog B) : prog B :=
  match m with
  | Ret _ a => f a
  | Do _ c k => Do _ c (fun x => bind (k x) f)
  end.

Definition perform (c : call) : prog (resp c) := Do _ c (Ret _).

(** *** Running a program

    Every primitive may raise.  The source has no [try]: the first
    exception ends the run and is the run's outcome. *)
Inductive outcome (E A : Type) : Type :=
| Return (a : A)
| Raise (e : E).

Definition handler (W E : Type) : Type :=
  forall c : call, W -> outcome E (resp c) * W.

Record run (W E A : Type) : Type := Run {
  out : outcome E A;      (* value returned or exception raised *)
  after : W;              (* the world the run leaves behind *)
  calls : list call       (* the primitive calls made, in order *)
}.

Fixpoint exec {W E A : Type} (h : handler W E) (m : prog A) (w : W) : run W E A :=
  match m with
  | Ret _ a => Run _ _ _ (Return _ _ a) w []
  | Do _ c k =>
      match h c w with
      | (Raise _ _ e, w') => Run _ _ _ (Raise _ _ e) w' [c]
      | (Return _ _ x, w') =>
          let r := exec h (k x) w' in
          Run _ _ _ (out _ _ _ r) (after _ _ _ r) (c :: calls _ _ _ r)
      end
  end.

End Calls.

Arguments call : clear implicits.
Arguments prog : clear implicits.
Arguments handler : clear implicits.
Arguments Ret {arr A} a.
Arguments Do {arr A} c k.
Arguments Return {E A} a.
Arguments Raise {E A} e.
Arguments Run {arr W E A} out after calls.
Arguments out {arr W E A} r.
Arguments after {arr W E A} r.
Arguments calls {arr W E A} r.

#[global] Instance prog_ret {arr} : MRet (prog arr) := fun A a => Ret a.
#[global] Instance prog_bind {arr} : MBind (prog arr) := fun A B f m => bind m f.

End Prim.

Import Prim.

(** ** The two wrappers *)

Section Wrappers.
Context {arr : Type}.
Variable os : flavour.

(** [def imread_unicode(path, flags=cv2.IMREAD_COLOR)] *)
Definition imread_unicode (path : str) (flags : Z) : prog arr (option arr) :=
  buf ← perform (Fromfile path);
  perform (Imdecode buf flags).


(** [def imwrite_unicode(path, img, params=None)]; [params] omitted is
    [None]. *)
Definition imwrite_unicode (path : str) (img : arr) (params : option (list Z))
    : prog arr bool :=
  let '(root, ext) := splitext os path in
  let '(ext, path) :=
    if negb (truthy ext) then
      let ext := dot_png in
      let path := path ++ ext in
      (ext, path)
    else (ext, path) in
  '(result, encoded_img) ←
    perform (Imencode ext img (match params with Some ps => ps | None => [] end));
  _ ← (if (result : bool) then perform (Tofile encoded_img path) else mret tt);
  mret result.   (* [bool(result)]: [retval] is a [bool] already *)

End Wrappers.

(** ** A reference world

    One concrete handler, used to run the wrappers on examples: files are
    byte strings by path, arrays are objects in a heap addressed by
    identity, and the codec is a pair of pure functions between arrays
    and byte strings.  [numpy] and [cv2] are outside the repository; the
    handler follows their documented behaviour: [np.fromfile] and
    [ndarray.tofile] raise [OSError] when the file cannot be opened, and
    every call that produces an array allocates a new object. *)

Module World.

(** An array of dtype [uint8]: its [shape] tuple and its samples in row
    order. *)
Record ndarray : Type := NdArray {
  shape : list nat;
  data : list Byte.byte
}.

Inductive exn : Type :=
| FileNotFoundError (path : str)
| PermissionError (path : str)
| TypeError
| CvError (msg : string).

Record codec : Type := Codec {
  encode : str -> ndarray -> list Z -> outcome exn (bool * list Byte.byte);
  decode : list Byte.byte -> Z -> outcome exn (option ndarray)
}.

Record world : Type := World {
  files : gmap str (list Byte.byte);     (* regular files by path *)
  readonly : bool;                  (* the file system refuses writes *)
  heap : gmap positive ndarray      (* live array objects by identity *)
}.

(** A new array object; its identity is not in use. *)
Definition alloc (a : ndarray) (w : world) : positive * world :=
  let r := fresh (dom (heap w)) in
  (r, World (files w) (readonly w) (<[r := a]> (heap w))).

Definition fromfile (path : str) (w : world) : outcome exn positive * world :=
  match files w !! path with
  | None => (Raise (FileNotFoundError path), w)
  | Some bs => let '(r, w') := alloc (NdArray [length bs] bs) w in (Return r, w')
  end.

Definition tofile (a : positive) (path : str) (w : world) : outcome exn unit * world :=
  match heap w !! a with
  | None => (Raise TypeError, w)
  | Some x =>
      if readonly w then (Raise (PermissionError path), w)
      else (Return tt, World (<[path := data x]> (files w)) (readonly w) (heap w))
  end.

Definition imdecode (cd : codec) (buf : positive) (flags : Z) (w : world)
    : outcome exn (option positive) * world :=
  match heap w !! buf with
  | None => (Raise TypeError, w)
  | Some b =>
      match decode cd (data b) flags with
      | Raise e => (Raise e, w)
      | Return None => (Return None, w)
      | Return (Some im) => let '(r, w') := alloc im w in (Return (Some r), w')
      end
  end.

Definition imencode (cd : codec) (ext : str) (img : positive) (params : list Z)
    (w : world) : outcome exn (bool * positive) * world :=
  match heap w !! img with
  | None => (Raise TypeError, w)
  | Some a =>
      match encode cd ext a params with
      | Raise e => (Raise e, w)
      | Return (ok, bs) =>
          let '(r, w') := alloc (NdArray [length bs] bs) w in (Return (ok, r), w')
      end
  end.

Definition handle (cd : codec) : handler positive world exn :=
  fun c =>
    match c with
    | Fromfile path => fromfile path
    | Imdecode buf flags => imdecode cd buf flags
    | Imencode ext img params => imencode cd ext img params
    | Tofile a path => tofile a path
    end.

End World.

Import World.

(** *** A container codec

    A stand-in for the PNG and JPEG codecs of [cv2] over 8-bit images of
    one, three or four channels.  It keeps what the statements below
    need of them: which calls raise, which answer the sentinel, and the
    shape of what is decoded.  A stream is a signature, height and width
    in four bytes each, the channel count, then the samples.  The samples
    themselves are kept as they are (JPEG is lossy, and a reduced image
    is interpolated; no statement below is about sample values).  The
    other formats [cv2] knows (BMP, TIFF, WebP and more) are absent, so
    their extensions are answered like unknown ones, and the limits of
    the real encoders on very large images are not modelled. *)

Module Container.

Definition signature : list Byte.byte := [Byte.x89; Byte.x50; Byte.x4e; Byte.x47].

(** Height, width and channels of an image shape, [(h, w)] or [(h, w, c)]. *)
Definition dims (sh : list nat) : option (nat * nat * nat) :=
  match sh with
  | [h; w] => Some (h, w, 1%nat)
  | [h; w; c] => Some (h, w, c)
  | _ => None
  end.

Definition byte_of_N (n : N) : Byte.byte := default Byte.x00 (Byte.of_N n).

(** A dimension in four bytes, most significant first. *)
Definition be32 (n : N) : list Byte.byte :=
  [byte_of_N (n / 16777216 mod 256); byte_of_N (n / 65536 mod 256);
   byte_of_N (n / 256 mod 256); byte_of_N (n mod 256)]%N.

Definition of_be32 (b0 b1 b2 b3 : Byte.byte) : N :=
  (((Byte.to_N b0 * 256 + Byte.to_N b1) * 256 + Byte.to_N b2) * 256 + Byte.to_N b3)%N.

Definition supported (c : nat) : bool := ((c =? 1) || (c =? 3) || (c =? 4))%nat.

(** **** Finding the encoder

    [cv2.imencode] looks the extension up by the letters and digits that
    follow its last dot, without regard to case, and raises when no
    encoder answers to them. *)
Inductive format := PNG | JPEG.

Definition isalnum (c : char) : bool :=
  ((48 <=? c) && (c <=? 57) || (65 <=? c) && (c <=? 90) || (97 <=? c) && (c <=? 122))%N.

Definition lower (c : char) : char :=
  if ((65 <=? c) && (c <=? 90))%N then (c + 32)%N else c.

Fixpoint alnum_run (s : str) : str :=
  match s with
  | c :: s' => if isalnum c then c :: alnum_run s' else []
  | [] => []
  end.

Definition find_encoder (ext : str) : option format :=
  let i := rfind ext dot in
  if i <? 0 then None
  else
    let name := lower <$> alnum_run (slice_from ext (i + 1)) in
    if Str.eqb name (of_ascii "png") then Some PNG
    else if Str.eqb name (of_ascii "jpeg") || Str.eqb name (of_ascii "jpg")
            || Str.eqb name (of_ascii "jpe") then Some JPEG
    else None.

(** **** Channel conversions *)

Definition gray_to_bgr (px : list Byte.byte) : list Byte.byte :=
  flat_map (fun b => [b; b; b]) px.

Definition luma (b g r : Byte.byte) : Byte.byte :=
  byte_of_N (N.shiftr
    (Byte.to_N b * 1868 + Byte.to_N g * 9617 + Byte.to_N r * 4899 + 8192) 14).

Fixpoint bgr_to_gray (px : list Byte.byte) : list Byte.byte :=
  match px with
  | b :: g :: r :: rest => luma b g r :: bgr_to_gray rest
  | _ => []
  end.

Fixpoint drop_alpha (px : list Byte.byte) : list Byte.byte :=
  match px with
  | b :: g :: r :: _ :: rest => b :: g :: r :: drop_alpha rest
  | _ => []
  end.

(** Samples of [c] channels brought to [c'] channels, for the pairs the
    decoder asks for. *)
Definition to_channels (c c' : nat) (px : list Byte.byte) : list Byte.byte :=
  if (c =? c')%nat then px
  else
    match c, c' with
    | 1%nat, 3%nat => gray_to_bgr px
    | 3%nat, 1%nat => bgr_to_gray px
    | 4%nat, 3%nat => drop_alpha px
    | 4%nat, 1%nat => bgr_to_gray (drop_alpha px)
    | _, _ => px
    end.

(** **** Encoding

    The encoder raises on an extension it does not know, on an array that
    is not an image of one, three or four channels, and on an empty
    image.  The JPEG encoder stores a four-channel image without its
    alpha channel. *)
Definition encode (ext : str) (a : ndarray) (params : list Z)
    : outcome exn (bool * list Byte.byte) :=
  match find_encoder ext with
  | None => Raise (CvError "could not find encoder for the specified extension")
  | Some fmt =>
      match dims (shape a) with
      | None => Raise (CvError "unsupported array shape")
      | Some (h, w, c) =>
          let hN := N.of_nat h in
          let wN := N.of_nat w in
          if supported c && (0 <? hN)%N && (0 <? wN)%N
             && (hN <? 4294967296)%N && (wN <? 4294967296)%N
             && (N.of_nat (length (data a)) =? hN * wN * N.of_nat c)%N
          then
            let c' := match fmt, c with JPEG, 4%nat => 3%nat | _, _ => c end in
            Return (true, signature ++ be32 hN ++ be32 wN
                            ++ [byte_of_N (N.of_nat c')] ++ to_channels c c' (data a))
          else Raise (CvError "unsupported image")
      end
  end.

(** **** Decoding *)

Definition parse (bs : list Byte.byte) : option (nat * nat * nat * list Byte.byte) :=
  match bs with
  | m0 :: m1 :: m2 :: m3 :: h0 :: h1 :: h2 :: h3 :: w0 :: w1 :: w2 :: w3 :: c :: px =>
      let h := of_be32 h0 h1 h2 h3 in
      let w := of_be32 w0 w1 w2 w3 in
      let c := Byte.to_N c in
      if Byte.eqb m0 Byte.x89 && Byte.eqb m1 Byte.x50 && Byte.eqb m2 Byte.x4e
         && Byte.eqb m3 Byte.x47 && supported (N.to_nat c)
         && (0 <? h)%N && (0 <? w)%N
         && (N.of_nat (length px) =? h * w * c)%N
      then Some (N.to_nat h, N.to_nat w, N.to_nat c, px)
      else None
  | _ => None
  end.

(** Channels of the decoded image for a stored channel count:
    [IMREAD_UNCHANGED] ([-1]) keeps them, a flag with the [IMREAD_COLOR]
    bit gives three, [IMREAD_ANYCOLOR] keeps colour as three, and
    otherwise the image is brought to one channel. *)
Definition channels_out (flags : Z) (c : nat) : nat :=
  if flags =? -1 then c
  else if Z.testbit flags 0 || (Z.testbit flags 2 && (1 <? c)%nat) then 3%nat
  else 1%nat.

(** The [IMREAD_REDUCED_*] flags divide height and width by 2, 4 or 8. *)
Definition scale_denom (flags : Z) : nat :=
  if flags >? 8 then
    if Z.testbit flags 4 then 2%nat
    else if Z.testbit flags 5 then 4%nat
    else if Z.testbit flags 6 then 8%nat
    else 1%nat
  else 1%nat.

(** Every [k]-th pixel of every [k]-th row. *)
Definition subsample (k h w c : nat) (px : list Byte.byte) : list Byte.byte :=
  flat_map (fun r =>
    flat_map (fun x =>
      map (fun ch => default Byte.x00 (px !! (((r * k) * w + x * k) * c + ch)%nat))
          (seq 0 c))
      (seq 0 (w / k)))
    (seq 0 (h / k)).

(** The decoder raises on [flags] that are no C [int] and on an empty
    buffer, and answers [None] for bytes that are no image. *)
Definition decode (bs : list Byte.byte) (flags : Z) : outcome exn (option ndarray) :=
  if (flags <? -2147483648) || (2147483647 <? flags) then
    Raise (CvError "flags is not an int")
  else
    match bs with
    | [] => Raise (CvError "!buf.empty()")
    | _ :: _ =>
        match parse bs with
        | None => Return None
        | Some (h, w, c, px) =>
            let k := scale_denom flags in
            let c' := channels_out flags c in
            let px' := to_channels c c' px in
            let h' := (h / k)%nat in
            let w' := (w / k)%nat in
            if ((h' =? 0) || (w' =? 0))%nat then Raise (CvError "empty image")
            else
              Return (Some (NdArray (if (c' =? 1)%nat then [h'; w'] else [h'; w'; c'])
                              (if (k =? 1)%nat then px' else subsample k h w c' px')))
        end
    end.

Definition cv : codec := Codec encode decode.

End Container.

(** An encoder that reports failure through its flag, as the interface
    of [cv2.imencode] allows. *)
Definition refusing : codec :=
  Codec (fun _ _ _ => Return (false, [])) (fun _ _ => Return None).

(** [np.zeros(shape, dtype=np.uint8)] *)
Definition zeros (sh : list nat) : ndarray :=
  NdArray sh (replicate (foldr Nat.mul 1%nat sh) Byte.x00).

(** An empty, writable file system holding one array, with identity [1]. *)
Definition world_with (a : ndarray) : world :=
  World ∅ false {[ 1%positive := a ]}.

(** The path of the repository's test, [/tmp/テスト画像]. *)
Definition test_path : str :=
  of_ascii "/tmp/" ++ [12486; 12473; 12488; 30011; 20687]%N.

(** The same, on a file system that refuses writes. *)
Definition world_readonly (a : ndarray) : world :=
  World ∅ true {[ 1%positive := a ]}.

(** A file system with one text file, [/tmp/notes.txt], and no array. *)
Definition notes_path : str := of_ascii "/tmp/notes.txt".

Definition world_notes : world :=
  World {[ notes_path := [Byte.x68; Byte.x65; Byte.x6c; Byte.x6c; Byte.x6f] ]} false ∅.

(** A file system with one empty file, [/tmp/empty.png], and no array. *)
Definition empty_path : str := of_ascii "/tmp/empty.png".

Definition world_empty_file : world := World {[ empty_path := [] ]} false ∅.

(** ** What [imwrite_unicode] asks of the primitives *)

Section Effective.
Variable os : flavour.

(** The extension handed to the encoder and the path handed to [tofile],
    after the defaulting step. *)
Definition effective_ext (p : str) : str :=
  let ext := (splitext os p).2 in
  if truthy ext then ext else dot_png.

Definition effective_path (p : str) : str :=
  if truthy (splitext os p).2 then p else p ++ dot_png.

End Effective.

(** The [params] arguments of the [cv2.imencode] calls in a trace. *)
Definition encoder_params {arr : Type} (cs : list (call arr)) : list (list Z) :=
  omap (fun c => match c with Imencode _ _ ps => Some ps | _ => None end) cs.

(** ** [os.path.splitext] on examples *)

Example splitext_ex_png : splitext posix (of_ascii "/tmp/a.b/c.png")
  = (of_ascii "/tmp/a.b/c", of_ascii ".png").
Proof. vm_compute. reflexivity. Qed.

Example splitext_ex_dotfile : splitext posix (of_ascii "/tmp/.config")
  = (of_ascii "/tmp/.config", []).
Proof. vm_compute. reflexivity. Qed.

Example splitext_ex_dotdir : splitext posix (of_ascii "/tmp/a.b/c")
  = (of_ascii "/tmp/a.b/c", []).
Proof. vm_compute. reflexivity. Qed.

Example splitext_ex_nt : splitext nt (of_ascii "C:\x.y\..foo.jpg")
  = (of_ascii "C:\x.y\..foo", of_ascii ".jpg").
Proof. vm_compute. reflexivity. Qed.

Section Unfolding.
Context {arr W E : Type}.
Variable os : flavour.
Variable h : handler arr W E.

Lemma imwrite_unicode_unfold (p : str) (img : arr) (params : option (list Z)) :
  imwrite_unicode os p img params =
  ('(result, encoded_img) ←
     perform (Imencode (effective_ext os p) img (default [] params));
   _ ← (if (result : bool)
        then perform (Tofile encoded_img (effective_path os p))
        else mret tt);
   mret result).
Proof.
  unfold imwrite_unicode, effective_ext, effective_path.
  destruct (splitext os p) as [root ext]; simpl.
  destruct ext; simpl; destruct params; reflexivity.
Qed.

(** The runs of [imwrite_unicode], by what the two primitives answer. *)
Lemma exec_imwrite_unicode (w : W) (p : str) (img : arr) (params : option (list Z)) :
  exec h (imwrite_unicode os p img params) w =
  let enc := Imencode (effective_ext os p) img (default [] params) in
  match h enc w with
  | (Raise e, w1) => Run (Raise e) w1 [enc]
  | (Return (false, _), w1) => Run (Return false) w1 [enc]
  | (Return (true, buf), w1) =>
      let wr := Tofile buf (effective_path os p) in
      match h wr w1 with
      | (Raise e, w2) => Run (Raise e) w2 [enc; wr]
      | (Return _, w2) => Run (Return true) w2 [enc; wr]
      end
  end.
Proof.
  rewrite imwrite_unicode_unfold. cbn.
  destruct (h _ w) as [[[[] buf]|e] w1]; cbn; try reflexivity.
  destruct (h _ w1) as [[u|e] w2]; reflexivity.
Qed.

Lemma exec_imread_unicode (w : W) (p : str) (flags : Z) :
  exec h (imread_unicode p flags) w =
  match h (Fromfile p) w with
  | (Raise e, w1) => Run (Raise e) w1 [Fromfile p]
  | (Return buf, w1) =>
      let dec := Imdecode buf flags in
      match h dec w1 with
      | (Raise e, w2) => Run (Raise e) w2 [Fromfile p; dec]
      | (Return r, w2) => Run (Return r) w2 [Fromfile p; dec]
      end
  end.
Proof.
  unfold imread_unicode. cbn.
  destruct (h _ w) as [[buf|e] w1]; cbn; try reflexivity.
  destruct (h _ w1) as [[r|e] w2]; reflexivity.
Qed.

End Unfolding.

(** ** [os.path.splitext]: the pieces put together give the path back *)

Lemma skip_leading_dots_join (p : str) (extsep : char) (d i : Z) (n : nat) (r : str * str) :
  skip_leading_dots p extsep d i n = Some r -> r.1 ++ r.2 = p.
Proof.
  revert i. induction n as [|n IH]; intros i; simpl; [discriminate|].
  destruct (negb _).
  - intros [= <-]. apply take_drop.
  - apply IH.
Qed.

Lemma splitext_join (os : flavour) (p : str) :
  (splitext os p).1 ++ (splitext os p).2 = p.
Proof.
  assert (G : forall sep altsep extsep,
             (_splitext p sep altsep extsep).1 ++ (_splitext p sep altsep extsep).2 = p).
  { intros sep altsep extsep. unfold _splitext.
    match goal with |- context [if ?b then ?x else None] =>
      destruct (if b then x else None) as [r|] eqn:Hr end.
    - destruct (_ >? _); [|discriminate].
      eapply skip_leading_dots_join, Hr.
    - simpl. apply app_nil_r. }
  destruct os; apply G.
Qed.

(** ** The writer *)

(** Closes [Tofile a f ∈ cs → f = q] for an explicit trace [cs]. *)
Ltac tofile_in_trace :=
  let Hin := fresh "Hin" in
  intros ? ? Hin;
  repeat (apply elem_of_cons in Hin as [Hin|Hin]; [try discriminate; try congruence|]);
  try (apply elem_of_nil in Hin; contradiction).

Section Writer.
Context {arr W E : Type}.
Variable os : flavour.
Variable h : handler arr W E.

(** Runs on a path without extension: the shared core of the
    default-extension results. *)
Lemma imwrite_without_ext_trace (w : W) (p : str) (img : arr) (params : option (list Z)) :
  (splitext os p).2 = [] ->
  let r := exec h (imwrite_unicode os p img params) w in
  let enc := Imencode dot_png img (default [] params) in
  (∃ rest, calls r = enc :: rest)
  ∧ (∀ a f, Tofile a f ∈ calls r → f = p ++ dot_png)
  ∧ (∀ buf w1, h enc w = (Return (true, buf), w1) →
       calls r = [enc; Tofile buf (p ++ dot_png)]).
Proof.
  intros Hext. cbv zeta. rewrite exec_imwrite_unicode.
  unfold effective_ext, effective_path. rewrite Hext. cbn [truthy]. cbv zeta.
  set (enc := Imencode dot_png img (default [] params)).
  destruct (h enc w) as [[[[] buf]|e] w1] eqn:Henc.
  - destruct (h (Tofile buf (p ++ dot_png)) w1) as [[u|e] w2]; simpl;
      (split; [eexists; reflexivity|split; [tofile_in_trace|]]);
      intros buf' w1' [= <- <-]; reflexivity.
  - simpl. split; [eexists; reflexivity|split; [tofile_in_trace|]].
    intros buf' w1' [=].
  - simpl. split; [eexists; reflexivity|split; [tofile_in_trace|]].
    intros buf' w1' [=].
Qed.

(** C1.  For a path [p] in which [os.path.splitext] finds no extension,
    [imwrite_unicode] appends [".png"]: the encoder is asked for [".png"],
    every [tofile] of the run goes to [p + ".png"], which is not [p], and
    when the encoder reports success the encoded buffer is written there. *)
Theorem imwrite_appends_png (w : W) (p : str) (img : arr) (params : option (list Z)) :
  (splitext os p).2 = [] ->
  let r := exec h (imwrite_unicode os p img params) w in
  let enc := Imencode dot_png img (default [] params) in
  p ++ dot_png ≠ p
  ∧ (∃ rest, calls r = enc :: rest)
  ∧ (∀ a f, Tofile a f ∈ calls r → f = p ++ dot_png)
  ∧ (∀ buf w1, h enc w = (Return (true, buf), w1) →
       calls r = [enc; Tofile buf (p ++ dot_png)]).
Proof.
  intros Hext. cbv zeta. split.
  - intros Heq. apply (f_equal length) in Heq. rewrite length_app in Heq.
    simpl in Heq. lia.
  - apply imwrite_without_ext_trace, Hext.
Qed.

(** C3.  For a path [p] in which [os.path.splitext] finds a non-empty
    extension [ext], [imwrite_unicode] leaves the path as it is: [p] still
    ends in [ext], the encoder is chosen by [ext], every [tofile] of the
    run goes to [p] itself, and when the encoder reports success the
    encoded buffer is written to [p]. *)
Theorem imwrite_keeps_extension (w : W) (p ext : str) (img : arr)
    (params : option (list Z)) :
  (splitext os p).2 = ext -> ext ≠ [] ->
  let r := exec h (imwrite_unicode os p img params) w in
  let enc := Imencode ext img (default [] params) in
  (splitext os p).1 ++ ext = p
  ∧ (∃ rest, calls r = enc :: rest)
  ∧ (∀ a f, Tofile a f ∈ calls r → f = p)
  ∧ (∀ buf w1, h enc w = (Return (true, buf), w1) → calls r = [enc; Tofile buf p]).
Proof.
  intros Hext Hne. cbv zeta. rewrite exec_imwrite_unicode.
  unfold effective_ext, effective_path. rewrite Hext.
  assert (Ht : truthy ext = true) by (destruct ext; [congruence|reflexivity]).
  rewrite Ht. cbv zeta.
  set (enc := Imencode ext img (default [] params)).
  split; [rewrite <- Hext; apply splitext_join|].
  destruct (h enc w) as [[[[] buf]|e] w1] eqn:Henc.
  - destruct (h (Tofile buf p) w1) as [[u|e] w2]; simpl;
      (split; [eexists; reflexivity|split; [tofile_in_trace|]]);
      intros buf' w1' [= <- <-]; reflexivity.
  - simpl. split; [eexists; reflexivity|split; [tofile_in_trace|]].
    intros buf' w1' [=].
  - simpl. split; [eexists; reflexivity|split; [tofile_in_trace|]].
    intros buf' w1' [=].
Qed.

(** C2, as the code has it.  [imwrite_unicode] returns the flag [b]
    exactly when the encoder reports [b] and, for [b = True], the
    [tofile] that follows does not raise.  Nothing else about the write
    reaches the value: whatever world a [tofile] that returns leaves
    behind, the value is [True]. *)
Theorem imwrite_returns_encoder_flag (w : W) (p : str) (img : arr)
    (params : option (list Z)) (b : bool) :
  out (exec h (imwrite_unicode os p img params) w) = Return b
  ↔ ∃ buf w1,
      h (Imencode (effective_ext os p) img (default [] params)) w = (Return (b, buf), w1)
      ∧ (b = true → ∃ w2, h (Tofile buf (effective_path os p)) w1 = (Return tt, w2)).
Proof.
  rewrite exec_imwrite_unicode. cbv zeta.
  destruct (h _ w) as [[[[] buf]|e] w1] eqn:Henc.
  - destruct (h _ w1) as [[[]|e] w2] eqn:Hwr; simpl; split.
    + intros [= <-]. exists buf, w1. split; [reflexivity|]. intros _. eauto.
    + intros (buf' & w1' & [= <- <- <-] & _). reflexivity.
    + discriminate.
    + intros (buf' & w1' & [= <- <- <-] & Hw). destruct (Hw eq_refl) as [w2' Hw2].
      rewrite Hwr in Hw2. discriminate.
  - simpl; split.
    + intros [= <-]. exists buf, w1. split; [reflexivity|]. discriminate.
    + intros (buf' & w1' & [= <- <- <-] & _). reflexivity.
  - simpl; split; [discriminate|]. intros (buf' & w1' & [=] & _).
Qed.

(** C4, as the code has it.  When the encoder fails, [imwrite_unicode]
    makes no [tofile] call: the encoder call is the whole run and the
    world is left as the encoder left it.  When the failure is the flag
    [False], the function returns [False]; when it is an exception, as
    for an extension [cv2.imencode] has no encoder for, the exception is
    the outcome of the call and nothing is returned. *)
Theorem imwrite_skips_write_on_encode_failure (w : W) (p : str) (img : arr)
    (params : option (list Z)) :
  let enc := Imencode (effective_ext os p) img (default [] params) in
  (∀ buf w1, h enc w = (Return (false, buf), w1) ->
     exec h (imwrite_unicode os p img params) w = Run (Return false) w1 [enc])
  ∧ (∀ e w1, h enc w = (Raise e, w1) ->
       exec h (imwrite_unicode os p img params) w = Run (Raise e) w1 [enc]).
Proof.
  intros enc. split.
  - intros buf w1 Henc. rewrite exec_imwrite_unicode. cbv zeta. fold enc.
    rewrite Henc. reflexivity.
  - intros e w1 Henc. rewrite exec_imwrite_unicode. cbv zeta. fold enc.
    rewrite Henc. reflexivity.
Qed.

(** C8.  Every run of [imwrite_unicode] calls the encoder once, and the
    [params] the encoder receives are the caller's sequence as given, or
    the empty list when the caller passed [None] or nothing. *)
Theorem imwrite_params_passthrough (w : W) (p : str) (img : arr) :
  encoder_params (calls (exec h (imwrite_unicode os p img None) w)) = [[]]
  ∧ ∀ ps : list Z,
      encoder_params (calls (exec h (imwrite_unicode os p img (Some ps)) w)) = [ps].
Proof.
  split; [|intros ps]; rewrite exec_imwrite_unicode; cbv zeta;
    (destruct (h _ w) as [[[[] buf]|e] w1]; [|reflexivity|reflexivity]);
    destruct (h _ w1) as [[u|e] w2]; reflexivity.
Qed.

End Writer.

(** ** The reader *)

Section Reader.
Context {arr W E : Type}.
Variable h : handler arr W E.

(** C5.  When the byte read raises, [imread_unicode] raises the same
    exception, unchanged, from the same world; the read is the only call
    of the run, so the decoder is never consulted and no sentinel is
    returned. *)
Theorem imread_propagates_read_error (w w1 : W) (p : str) (flags : Z) (e : E) :
  h (Fromfile p) w = (Raise e, w1) ->
  exec h (imread_unicode p flags) w = Run (Raise e) w1 [Fromfile p].
Proof. intros Hrd. rewrite exec_imread_unicode, Hrd. reflexivity. Qed.

(** C6, as the code has it.  When the file can be read, what the decoder
    does with the buffer is what [imread_unicode] does: if the decoder
    answers its sentinel [None], that [None] is returned and nothing is
    raised; if the decoder raises, as [cv2.imdecode] does on the empty
    buffer of a file of no bytes, the exception is the outcome of the
    call. *)
Theorem imread_returns_decoder_sentinel (w w1 : W) (p : str) (flags : Z) (buf : arr) :
  h (Fromfile p) w = (Return buf, w1) ->
  (∀ w2, h (Imdecode buf flags) w1 = (Return None, w2) ->
     exec h (imread_unicode p flags) w
     = Run (Return None) w2 [Fromfile p; Imdecode buf flags])
  ∧ (∀ e w2, h (Imdecode buf flags) w1 = (Raise e, w2) ->
       exec h (imread_unicode p flags) w
       = Run (Raise e) w2 [Fromfile p; Imdecode buf flags]).
Proof.
  intros Hrd. split.
  - intros w2 Hdec. rewrite exec_imread_unicode, Hrd. cbn. rewrite Hdec. reflexivity.
  - intros e w2 Hdec. rewrite exec_imread_unicode, Hrd. cbn. rewrite Hdec. reflexivity.
Qed.

End Reader.

(** ** The caller's array *)

Section Ownership.
Context {arr W E V : Type}.
Variable os : flavour.
Variable h : handler arr W E.

(** [content w a] is what the array [a] holds in the world [w];
    [live w a] says that the object [a] exists in [w]. *)
Variable content : W -> arr -> V.
Variable live : W -> arr -> Prop.

(** For any handler: provided the encoder and [tofile] only read [img],
    a call of [imwrite_unicode] leaves [img] as it was, whatever its
    outcome; and provided [np.fromfile] frees nothing and [cv2.imdecode]
    returns a new object, an array [imread_unicode] returns did not
    exist before the call. *)
Lemma primitives_frame (img : arr) :
  (∀ ext ps w, content (h (Imencode ext img ps) w).2 img = content w img) ->
  (∀ a f w, content (h (Tofile a f) w).2 img = content w img) ->
  (∀ f w a, live w a -> live (h (Fromfile f) w).2 a) ->
  (∀ buf flags w r w', h (Imdecode buf flags) w = (Return (Some r), w') -> ¬ live w r) ->
  (∀ w p params,
     content (after (exec h (imwrite_unicode os p img params) w)) img = content w img)
  ∧ (∀ w p flags r,
       out (exec h (imread_unicode p flags) w) = Return (Some r) -> ¬ live w r).
Proof.
  intros Henc Hwr Hrd Hdec. split.
  - intros w p params. rewrite exec_imwrite_unicode. cbv zeta.
    pose proof (Henc (effective_ext os p) (default [] params) w) as H1.
    destruct (h _ w) as [[[[] buf]|e] w1]; simpl in *; try exact H1.
    pose proof (Hwr buf (effective_path os p) w1) as H2.
    destruct (h _ w1) as [[u|e] w2]; simpl in *; congruence.
  - intros w p flags r. rewrite exec_imread_unicode.
    pose proof (fun a => Hrd p w a) as H1.
    destruct (h _ w) as [[buf|e] w1]; simpl in *; [|discriminate].
    destruct (h _ w1) as [[r'|e] w2] eqn:Hd; simpl; [|discriminate].
    intros [= ->] Hl. eapply Hdec; [exact Hd|]. apply H1, Hl.
Qed.

End Ownership.

(** ** Dot files *)

Lemma rfind_from_app (c : char) (a b : str) (i last : Z) :
  rfind_from c (a ++ b) i last
  = rfind_from c b (i + Z.of_nat (length a)) (rfind_from c a i last).
Proof.
  revert i last. induction a as [|x a IH]; intros i last; simpl.
  - f_equal. lia.
  - rewrite IH. f_equal. lia.
Qed.

Lemma rfind_from_absent (c : char) (s : str) (i last : Z) :
  Forall (fun x => x ≠ c) s -> rfind_from c s i last = last.
Proof.
  intros Hs. revert i. induction Hs as [|x s Hx _ IH]; intros i; simpl; [reflexivity|].
  apply N.eqb_neq in Hx. rewrite Hx. apply IH.
Qed.

Lemma rfind_from_bound (c : char) (s : str) (i last : Z) :
  last < i -> last <= rfind_from c s i last < i + Z.of_nat (length s).
Proof.
  revert i last. induction s as [|x s IH]; intros i last Hlt; simpl; [lia|].
  destruct (N.eqb x c).
  - specialize (IH (i + 1) i). lia.
  - specialize (IH (i + 1) last). lia.
Qed.

(** In [dir + "." + name] the last [c] is the one of [dir], when [c] is
    not the dot and [name] has none. *)
Lemma rfind_before_dotfile (c : char) (dir name : str) :
  c ≠ dot -> Forall (fun x => x ≠ c) name ->
  rfind (dir ++ dot :: name) c = rfind dir c.
Proof.
  intros Hc Hn. unfold rfind. rewrite rfind_from_app. cbn [rfind_from].
  assert (Hd : N.eqb dot c = false) by (apply N.eqb_neq; congruence).
  rewrite Hd. apply rfind_from_absent, Hn.
Qed.

Lemma rfind_dot_dotfile (dir name : str) :
  Forall (fun x => x ≠ dot) name ->
  rfind (dir ++ dot :: name) dot = Z.of_nat (length dir).
Proof.
  intros Hn. unfold rfind. rewrite rfind_from_app. cbn [rfind_from].
  rewrite N.eqb_refl, rfind_from_absent by exact Hn. lia.
Qed.

Lemma rfind_snoc (c s : char) (d : str) :
  rfind (d ++ [s]) c = if N.eqb s c then Z.of_nat (length d) else rfind d c.
Proof.
  unfold rfind. rewrite rfind_from_app. cbn [rfind_from].
  destruct (N.eqb s c); [lia|reflexivity].
Qed.

Lemma rfind_lt_length (c : char) (s : str) : -1 <= rfind s c < Z.of_nat (length s).
Proof. unfold rfind. pose proof (rfind_from_bound c s 0 (-1)). lia. Qed.

(** [rfind] is [str.rfind]: [-1] when [c] does not occur, and otherwise
    the index of an occurrence with none after it. *)
Lemma rfind_spec (c : char) (s : str) :
  (rfind s c = -1 ∧ Forall (fun x => x ≠ c) s)
  ∨ (0 <= rfind s c
     ∧ s !! Z.to_nat (rfind s c) = Some c
     ∧ Forall (fun x => x ≠ c) (drop (S (Z.to_nat (rfind s c))) s)).
Proof.
  induction s as [|x d IH] using rev_ind.
  - left. split; [reflexivity|constructor].
  - rewrite rfind_snoc. destruct (N.eqb x c) eqn:Hx.
    + apply N.eqb_eq in Hx as ->. right. rewrite Nat2Z.id.
      split; [lia|]. split.
      * rewrite lookup_app_r, Nat.sub_diag by lia. reflexivity.
      * rewrite drop_ge by (rewrite length_app; simpl; lia). constructor.
    + apply N.eqb_neq in Hx. destruct IH as [[-> Hd]|(Hr & Hl & Hd)].
      * left. split; [reflexivity|]. apply Forall_app. split; [exact Hd|].
        constructor; [exact Hx|constructor].
      * right. split; [exact Hr|].
        assert (Hlt : (Z.to_nat (rfind d c) < length d)%nat)
          by (eapply lookup_lt_Some, Hl).
        split.
        -- rewrite lookup_app_l by exact Hlt. exact Hl.
        -- rewrite drop_app_le by lia. apply Forall_app. split; [exact Hd|].
           constructor; [exact Hx|constructor].
Qed.

(** A path without any dot has no extension. *)
Lemma splitext_no_dot (os : flavour) (p : str) :
  Forall (fun x => x ≠ dot) p -> splitext os p = (p, []).
Proof.
  intros Hp.
  assert (G : forall sep altsep, _splitext p sep altsep dot = (p, [])).
  { intros sep altsep. unfold _splitext.
    assert (Hd : rfind p dot = -1) by (apply rfind_from_absent, Hp).
    rewrite Hd.
    pose proof (rfind_lt_length sep p) as Hs.
    set (s := match altsep with Some a => _ | None => _ end).
    assert (Hge : -1 <= s).
    { subst s. destruct altsep as [a|]; [|lia].
      pose proof (rfind_lt_length a p). lia. }
    replace (-1 >? s) with false
      by (symmetry; rewrite Z.gtb_ltb; apply Z.ltb_ge; lia).
    reflexivity. }
  destruct os; apply G.
Qed.

(** When the last dot stands right after the last separator, the loop
    over leading dots has nothing to look at and the split finds no
    extension. *)
Lemma _splitext_leading_dot (p : str) (sep : char) (altsep : option char) (extsep : char) :
  rfind p extsep
  = match altsep with
    | Some a => Z.max (rfind p sep) (rfind p a)
    | None => rfind p sep
    end + 1 ->
  _splitext p sep altsep extsep = (p, []).
Proof.
  intros Hdot. unfold _splitext. rewrite Hdot.
  set (s := match altsep with Some a => _ | None => _ end).
  replace (s + 1 >? s) with true by (symmetry; apply Z.gtb_lt; lia).
  replace (s + 1 - (s + 1)) with 0 by lia. reflexivity.
Qed.

Lemma splitext_dotfile (os : flavour) (dir name : str) :
  dir = [] ∨ (∃ d s, dir = d ++ [s] ∧ is_sep os s = true) ->
  Forall (fun c => c ≠ dot ∧ is_sep os c = false) name ->
  splitext os (dir ++ dot :: name) = (dir ++ dot :: name, []).
Proof.
  intros Hdir Hname.
  assert (Hnd : Forall (fun x => x ≠ dot) name).
  { eapply Forall_impl; [exact Hname|]. intros x [Hx _]. exact Hx. }
  assert (Hsl : Forall (fun x => x ≠ slash) name).
  { eapply Forall_impl; [exact Hname|]. intros x [_ Hx] ->.
    destruct os; discriminate Hx. }
  assert (Hdot := rfind_dot_dotfile dir name Hnd).
  assert (Hslash := rfind_before_dotfile slash dir name ltac:(discriminate) Hsl).
  destruct os; simpl; apply _splitext_leading_dot; rewrite Hdot, Hslash.
  - destruct Hdir as [->|(d & s & -> & Hs)]; [reflexivity|].
    simpl in Hs. rewrite rfind_snoc, Hs, length_app. simpl. lia.
  - assert (Hbs : Forall (fun x => x ≠ backslash) name).
    { eapply Forall_impl; [exact Hname|]. intros x [_ Hx] ->. discriminate Hx. }
    rewrite (rfind_before_dotfile backslash dir name ltac:(discriminate) Hbs).
    destruct Hdir as [->|(d & s & -> & Hs)]; [reflexivity|].
    rewrite !rfind_snoc, length_app. simpl in Hs |- *.
    pose proof (rfind_lt_length backslash d). pose proof (rfind_lt_length slash d).
    destruct (N.eqb s backslash), (N.eqb s slash); try discriminate Hs; lia.
Qed.

Section DotFiles.
Context {arr W E : Type}.
Variable os : flavour.
Variable h : handler arr W E.

(** C10.  A path whose last component is a dot followed by a name without
    further dots, such as [/tmp/.config], has no extension for
    [os.path.splitext]; [imwrite_unicode] therefore asks the encoder for
    [".png"], not for the dotted name, and writes to the path with
    [".png"] appended. *)
Theorem imwrite_dotfile_gets_png (w : W) (dir name : str) (img : arr)
    (params : option (list Z)) :
  dir = [] ∨ (∃ d s, dir = d ++ [s] ∧ is_sep os s = true) ->
  Forall (fun c => c ≠ dot ∧ is_sep os c = false) name ->
  let p := dir ++ dot :: name in
  let r := exec h (imwrite_unicode os p img params) w in
  let enc := Imencode dot_png img (default [] params) in
  splitext os p = (p, [])
  ∧ (∃ rest, calls r = enc :: rest)
  ∧ (∀ a f, Tofile a f ∈ calls r → f = p ++ dot_png)
  ∧ (∀ buf w1, h enc w = (Return (true, buf), w1) →
       calls r = [enc; Tofile buf (p ++ dot_png)]).
Proof.
  intros Hdir Hname. cbv zeta.
  pose proof (splitext_dotfile os dir name Hdir Hname) as Hsp.
  split; [exact Hsp|].
  apply imwrite_without_ext_trace. rewrite Hsp. reflexivity.
Qed.

End DotFiles.

(** ** The reference world: objects and files *)

Lemma alloc_fresh (a : ndarray) (w : world) : heap w !! (alloc a w).1 = None.
Proof.
  unfold alloc. simpl. apply not_elem_of_dom, is_fresh.
Qed.

Lemma alloc_lookup_new (a : ndarray) (w : world) :
  heap (alloc a w).2 !! (alloc a w).1 = Some a.
Proof. unfold alloc. simpl. apply lookup_insert_eq. Qed.

Lemma alloc_lookup_old (a : ndarray) (w : world) (k : positive) :
  is_Some (heap w !! k) -> heap (alloc a w).2 !! k = heap w !! k.
Proof.
  intros Hk. pose proof (alloc_fresh a w) as Hf.
  unfold alloc in *. simpl in *. apply lookup_insert_ne.
  intros <-. rewrite Hf in Hk. destruct Hk; discriminate.
Qed.

(** The encoder and [tofile] of the reference world leave every array
    object as it is. *)
Lemma imencode_reads_only (cd : codec) (ext : str) (img : positive) (ps : list Z)
    (w : world) :
  heap (imencode cd ext img ps w).2 !! img = heap w !! img.
Proof.
  unfold imencode. destruct (heap w !! img) as [a|] eqn:Ha; [|exact Ha].
  destruct (encode cd ext a ps) as [[ok bs]|e]; [|exact Ha].
  rewrite <- Ha.
  change (heap (alloc (NdArray [length bs] bs) w).2 !! img = heap w !! img).
  apply alloc_lookup_old. rewrite Ha. eauto.
Qed.

Lemma tofile_heap (a : positive) (f : str) (w : world) :
  heap (tofile a f w).2 = heap w.
Proof.
  unfold tofile. destruct (heap w !! a); [|reflexivity].
  destruct (readonly w); reflexivity.
Qed.

Lemma fromfile_keeps_live (f : str) (w : world) (a : positive) :
  is_Some (heap w !! a) -> is_Some (heap (fromfile f w).2 !! a).
Proof.
  intros Ha. unfold fromfile. destruct (files w !! f) as [bs|]; [|exact Ha].
  change (is_Some (heap (alloc (NdArray [length bs] bs) w).2 !! a)).
  rewrite alloc_lookup_old; assumption.
Qed.

Lemma imdecode_returns_new (cd : codec) (buf : positive) (flags : Z) (w w' : world)
    (r : positive) :
  imdecode cd buf flags w = (Return (Some r), w') -> ¬ is_Some (heap w !! r).
Proof.
  unfold imdecode. destruct (heap w !! buf) as [b|]; [|discriminate].
  destruct (decode cd (data b) flags) as [[im|]|e]; try discriminate.
  intros Heq.
  assert (r = (alloc im w).1) as -> by (unfold alloc in *; simpl in *; congruence).
  rewrite alloc_fresh. intros [x Hx]. discriminate.
Qed.

Section RoundTrip.
Variable cd : codec.
Variable os : flavour.

(** A write that returned [True] stored the encoder's bytes at the
    effective path. *)
Lemma imwrite_success_stores (w : world) (p : str) (img : positive)
    (params : option (list Z)) (a : ndarray) :
  heap w !! img = Some a ->
  out (exec (handle cd) (imwrite_unicode os p img params) w) = Return true ->
  ∃ bs,
    encode cd (effective_ext os p) a (default [] params) = Return (true, bs)
    ∧ files (after (exec (handle cd) (imwrite_unicode os p img params) w))
        !! effective_path os p = Some bs.
Proof.
  intros Ha. rewrite exec_imwrite_unicode. cbv zeta.
  cbn [handle]. unfold imencode. rewrite Ha.
  destruct (encode cd _ a (default [] params)) as [[ok bs]|e]; [|discriminate].
  set (buf := NdArray [length bs] bs).
  change (let '(r, w') := alloc buf w in (Return (ok, r), w'))
    with (@Return exn _ (ok, (alloc buf w).1), (alloc buf w).2).
  destruct ok; [|discriminate]. cbn iota beta.
  unfold tofile. rewrite alloc_lookup_new.
  change (readonly (alloc buf w).2) with (readonly w).
  destruct (readonly w); [discriminate|]. intros _.
  exists bs. split; [reflexivity|]. cbn [after files]. apply lookup_insert_eq.
Qed.

(** Whatever the outcome, a write leaves every file other than the one at
    the effective path as it was. *)
Lemma imwrite_touches_one_file (w : world) (p q : str) (img : positive)
    (params : option (list Z)) :
  q ≠ effective_path os p ->
  files (after (exec (handle cd) (imwrite_unicode os p img params) w)) !! q
  = files w !! q.
Proof.
  intros Hq. rewrite exec_imwrite_unicode. cbv zeta.
  cbn [handle]. unfold imencode.
  destruct (heap w !! img) as [a|]; [|reflexivity].
  destruct (encode cd _ a (default [] params)) as [[ok bs]|e]; [|reflexivity].
  set (buf := NdArray [length bs] bs).
  change (let '(r, w') := alloc buf w in (Return (ok, r), w'))
    with (@Return exn _ (ok, (alloc buf w).1), (alloc buf w).2).
  destruct ok; [|reflexivity]. cbn iota beta.
  unfold tofile. rewrite alloc_lookup_new.
  change (readonly (alloc buf w).2) with (readonly w).
  destruct (readonly w); [reflexivity|].
  cbn [after files]. apply lookup_insert_ne. congruence.
Qed.

(** Reading a file whose bytes decode returns a new object holding the
    decoded array. *)
Lemma imread_decodes_file (w : world) (q : str) (flags : Z) (bs : list Byte.byte)
    (a' : ndarray) :
  files w !! q = Some bs ->
  decode cd bs flags = Return (Some a') ->
  ∃ r, out (exec (handle cd) (imread_unicode q flags) w) = Return (Some r)
       ∧ heap (after (exec (handle cd) (imread_unicode q flags) w)) !! r = Some a'.
Proof.
  intros Hfile Hdec. rewrite exec_imread_unicode.
  cbn [handle]. unfold fromfile. rewrite Hfile.
  set (buf := NdArray [length bs] bs).
  change (let '(r, w') := alloc buf w in (@Return exn _ r, w'))
    with (@Return exn _ (alloc buf w).1, (alloc buf w).2).
  cbv zeta. cbn iota beta. unfold imdecode. rewrite alloc_lookup_new.
  change (data buf) with bs. rewrite Hdec.
  set (w2 := (alloc buf w).2).
  change (let '(r, w') := alloc a' w2 in (@Return exn _ (Some r), w'))
    with (@Return exn _ (Some (alloc a' w2).1), (alloc a' w2).2).
  cbn iota beta. exists (alloc a' w2).1. cbn [out after].
  split; [reflexivity|apply alloc_lookup_new].
Qed.

(** After a call of [imwrite_unicode] that returned [True],
    [imread_unicode] on the effective path decodes exactly the bytes the
    encoder produced for [img] under the effective extension. *)
Lemma write_then_read_decodes (w : world) (p : str) (img : positive)
    (params : option (list Z)) (flags : Z) (a : ndarray) :
  heap w !! img = Some a ->
  out (exec (handle cd) (imwrite_unicode os p img params) w) = Return true ->
  (∀ bs, encode cd (effective_ext os p) a (default [] params) = Return (true, bs) ->
         ∃ a', decode cd bs flags = Return (Some a') ∧ shape a' = shape a) ->
  let w1 := after (exec (handle cd) (imwrite_unicode os p img params) w) in
  let rd := exec (handle cd) (imread_unicode (effective_path os p) flags) w1 in
  ∃ bs r a',
    encode cd (effective_ext os p) a (default [] params) = Return (true, bs)
    ∧ files w1 !! effective_path os p = Some bs
    ∧ decode cd bs flags = Return (Some a')
    ∧ out rd = Return (Some r)
    ∧ heap (after rd) !! r = Some a'
    ∧ shape a' = shape a.
Proof.
  intros Ha Hret Hcodec. cbv zeta.
  destruct (imwrite_success_stores w p img params a Ha Hret) as (bs & Henc & Hfile).
  destruct (Hcodec bs Henc) as (a' & Hdec & Hshape).
  destruct (imread_decodes_file _ _ flags bs a' Hfile Hdec) as (r & Hout & Hheap).
  exists bs, r, a'. repeat split; assumption.
Qed.

End RoundTrip.

(** ** The container codec: what is written can be read *)








Section ContainerRoundTrip.
Variable os : flavour.


End ContainerRoundTrip.

(** ** The reference world: whose arrays? *)

Section Objects.
Variable cd : codec.

(** A write changes no array object that exists. *)
Lemma imwrite_keeps_objects (os : flavour) (w : world) (p : str) (img : positive)
    (params : option (list Z)) (k : positive) :
  is_Some (heap w !! k) ->
  heap (after (exec (handle cd) (imwrite_unicode os p img params) w)) !! k
  = heap w !! k.
Proof.
  intros Hk. rewrite exec_imwrite_unicode. cbv zeta.
  cbn [handle]. unfold imencode.
  destruct (heap w !! img) as [a|]; [|reflexivity].
  destruct (encode cd _ a (default [] params)) as [[ok bs]|e]; [|reflexivity].
  set (buf := NdArray [length bs] bs).
  change (let '(r, w') := alloc buf w in (Return (ok, r), w'))
    with (@Return exn _ (ok, (alloc buf w).1), (alloc buf w).2).
  destruct ok; cbn iota beta.
  - unfold tofile. rewrite alloc_lookup_new.
    change (readonly (alloc buf w).2) with (readonly w).
    destruct (readonly w); cbn [after heap]; apply alloc_lookup_old, Hk.
  - cbn [after]. apply alloc_lookup_old, Hk.
Qed.

(** A read of a file that decodes returns an object that did not exist,
    and changes neither the objects that did nor the files. *)
Lemma imread_allocates (w : world) (p : str) (flags : Z) (bs : list Byte.byte)
    (a' : ndarray) :
  files w !! p = Some bs ->
  decode cd bs flags = Return (Some a') ->
  let rd := exec (handle cd) (imread_unicode p flags) w in
  ∃ r, out rd = Return (Some r)
       ∧ heap w !! r = None
       ∧ heap (after rd) !! r = Some a'
       ∧ (∀ k, is_Some (heap w !! k) -> heap (after rd) !! k = heap w !! k)
       ∧ files (after rd) = files w.
Proof.
  intros Hfile Hdec. cbv zeta. rewrite exec_imread_unicode.
  cbn [handle]. unfold fromfile. rewrite Hfile.
  set (buf := NdArray [length bs] bs).
  change (let '(r, w') := alloc buf w in (@Return exn _ r, w'))
    with (@Return exn _ (alloc buf w).1, (alloc buf w).2).
  cbv zeta. cbn iota beta. unfold imdecode. rewrite alloc_lookup_new.
  change (data buf) with bs. rewrite Hdec.
  set (w2 := (alloc buf w).2).
  change (let '(r, w') := alloc a' w2 in (@Return exn _ (Some r), w'))
    with (@Return exn _ (Some (alloc a' w2).1), (alloc a' w2).2).
  cbn iota beta. exists (alloc a' w2).1. cbn [out after].
  assert (Hold : ∀ k, is_Some (heap w !! k) -> heap w2 !! k = heap w !! k)
    by (intros k Hk; apply alloc_lookup_old, Hk).
  split; [reflexivity|]. split; [|split; [apply alloc_lookup_new|split]].
  - destruct (heap w !! (alloc a' w2).1) as [x|] eqn:Hx; [|reflexivity].
    pose proof (Hold _ (ex_intro _ x Hx)) as H2. rewrite alloc_fresh, Hx in H2.
    discriminate.
  - intros k Hk. rewrite alloc_lookup_old; [apply Hold, Hk|].
    rewrite Hold; assumption.
  - reflexivity.
Qed.

(** C9.  In the reference world, whatever the codec: a call of
    [imwrite_unicode] leaves every array object that existed, the
    caller's image among them, as it was, whatever the outcome of the
    call.  A call of [imread_unicode] on a file that decodes returns an
    object that did not exist before the call, holding the decoded
    image, and leaves the objects that did exist as they were.  Nothing
    is kept from one call to the next: a second read of the same file
    returns yet another object holding the same image, and the first
    result is still what it was. *)
Theorem wrappers_leave_image_alone (os : flavour) (w : world) :
  (∀ p img params k,
     is_Some (heap w !! k) ->
     heap (after (exec (handle cd) (imwrite_unicode os p img params) w)) !! k
     = heap w !! k)
  ∧ (∀ p flags bs a',
       files w !! p = Some bs ->
       decode cd bs flags = Return (Some a') ->
       let rd := exec (handle cd) (imread_unicode p flags) w in
       let rd' := exec (handle cd) (imread_unicode p flags) (after rd) in
       ∃ r r',
         out rd = Return (Some r)
         ∧ heap w !! r = None
         ∧ heap (after rd) !! r = Some a'
         ∧ (∀ k, is_Some (heap w !! k) -> heap (after rd) !! k = heap w !! k)
         ∧ out rd' = Return (Some r')
         ∧ r' ≠ r
         ∧ heap (after rd') !! r' = Some a'
         ∧ heap (after rd') !! r = Some a').
Proof.
  split.
  - intros p img params k. apply imwrite_keeps_objects.
  - intros p flags bs a' Hfile Hdec. cbv zeta.
    destruct (imread_allocates w p flags bs a' Hfile Hdec)
      as (r & Hout & Hnew & Hr & Hold & Hfiles).
    rewrite <- Hfiles in Hfile.
    destruct (imread_allocates _ p flags bs a' Hfile Hdec)
      as (r' & Hout' & Hnew' & Hr' & Hold' & _).
    exists r, r'. split; [exact Hout|]. split; [exact Hnew|]. split; [exact Hr|].
    split; [exact Hold|]. split; [exact Hout'|]. split; [|split; [exact Hr'|]].
    + intros Heq. rewrite Heq, Hr in Hnew'. discriminate.
    + rewrite Hold'; [exact Hr|]. rewrite Hr. eauto.
Qed.

End Objects.

(** ** The theorems at work in the reference world *)

(** The repository's test: a colour image written to [/tmp/テスト画像]
    goes to [/tmp/テスト画像.png], the only file there is afterwards. *)
Lemma imwrite_appends_png_witness :
  (splitext posix test_path).2 = []
  ∧ test_path ++ dot_png ≠ test_path
  ∧ calls (exec (handle Container.cv)
             (imwrite_unicode posix test_path 1%positive None)
             (world_with (zeros [10; 10; 3]%nat)))
    = [Imencode dot_png 1%positive []; Tofile 2%positive (test_path ++ dot_png)]
  ∧ dom (files (after (exec (handle Container.cv)
                         (imwrite_unicode posix test_path 1%positive None)
                         (world_with (zeros [10; 10; 3]%nat)))))
    = {[ test_path ++ dot_png ]}.
Proof.
  assert (H : (splitext posix test_path).2 = []) by (vm_compute; reflexivity).
  split; [exact H|].
  destruct (imwrite_appends_png posix (handle Container.cv)
              (world_with (zeros [10; 10; 3]%nat)) test_path 1%positive None H)
    as (Hne & _ & _ & Hw).
  split; [exact Hne|]. split.
  - apply (Hw 2%positive
             (handle Container.cv (Imencode dot_png 1%positive [])
                (world_with (zeros [10; 10; 3]%nat))).2).
    vm_compute. reflexivity.
  - vm_compute. reflexivity.
Defined.

(** [/tmp/out.png] is encoded by its own extension and written where the
    caller said. *)
Lemma imwrite_keeps_extension_witness :
  (splitext posix (of_ascii "/tmp/out.png")).2 = dot_png
  ∧ dot_png ≠ []
  ∧ (splitext posix (of_ascii "/tmp/out.png")).1 ++ dot_png = of_ascii "/tmp/out.png"
  ∧ calls (exec (handle Container.cv)
             (imwrite_unicode posix (of_ascii "/tmp/out.png") 1%positive None)
             (world_with (zeros [10; 10; 3]%nat)))
    = [Imencode dot_png 1%positive []; Tofile 2%positive (of_ascii "/tmp/out.png")].
Proof.
  assert (H : (splitext posix (of_ascii "/tmp/out.png")).2 = dot_png)
    by (vm_compute; reflexivity).
  assert (Hne : dot_png ≠ []) by discriminate.
  split; [exact H|]. split; [exact Hne|].
  destruct (imwrite_keeps_extension posix (handle Container.cv)
              (world_with (zeros [10; 10; 3]%nat)) (of_ascii "/tmp/out.png") dot_png
              1%positive None H Hne)
    as (Hjoin & _ & _ & Hw).
  split; [exact Hjoin|].
  apply (Hw 2%positive
           (handle Container.cv (Imencode dot_png 1%positive [])
              (world_with (zeros [10; 10; 3]%nat))).2).
  vm_compute. reflexivity.
Defined.

(** Both ways of failing: an encoder that answers [False], and
    [/tmp/out.xyz], for which there is no encoder.  Nothing is written
    either way. *)
Lemma imwrite_skips_write_on_encode_failure_witness :
  let w := world_with (zeros [10; 10; 3]%nat) in
  let p := of_ascii "/tmp/out.xyz" in
  let enc := Imencode (of_ascii ".xyz") 1%positive [] in
  let e := CvError "could not find encoder for the specified extension" in
  handle refusing enc w = (Return (false, 2%positive), (handle refusing enc w).2)
  ∧ exec (handle refusing) (imwrite_unicode posix p 1%positive None) w
    = Run (Return false) (handle refusing enc w).2 [enc]
  ∧ handle Container.cv enc w = (Raise e, w)
  ∧ exec (handle Container.cv) (imwrite_unicode posix p 1%positive None) w
    = Run (Raise e) w [enc].
Proof.
  intros w p enc e.
  assert (H1 : handle refusing enc w
               = (Return (false, 2%positive), (handle refusing enc w).2))
    by (vm_compute; reflexivity).
  assert (H2 : handle Container.cv enc w = (Raise e, w)) by (vm_compute; reflexivity).
  split; [exact H1|]. split; [|split; [exact H2|]].
  - exact (proj1 (imwrite_skips_write_on_encode_failure posix (handle refusing) w p
                    1%positive None) 2%positive _ H1).
  - exact (proj2 (imwrite_skips_write_on_encode_failure posix (handle Container.cv) w p
                    1%positive None) e w H2).
Defined.

(** A path that does not exist: [FileNotFoundError] comes out as raised. *)
Lemma imread_propagates_read_error_witness :
  handle Container.cv (Fromfile test_path) world_notes
    = (Raise (FileNotFoundError test_path), world_notes)
  ∧ exec (handle Container.cv) (imread_unicode test_path IMREAD_COLOR) world_notes
    = Run (Raise (FileNotFoundError test_path)) world_notes [Fromfile test_path].
Proof.
  assert (H : handle Container.cv (Fromfile test_path) world_notes
              = (Raise (FileNotFoundError test_path), world_notes))
    by (vm_compute; reflexivity).
  split; [exact H|].
  exact (imread_propagates_read_error (handle Container.cv) world_notes world_notes
           test_path IMREAD_COLOR (FileNotFoundError test_path) H).
Defined.

(** A text file is readable and is not an image: the result is [None].
    A file of no bytes is readable too, and the decoder raises on it. *)
Lemma imread_returns_decoder_sentinel_witness :
  let h := handle Container.cv in
  let w1 := (h (Fromfile notes_path) world_notes).2 in
  let v1 := (h (Fromfile empty_path) world_empty_file).2 in
  h (Fromfile notes_path) world_notes = (Return 1%positive, w1)
  ∧ h (Imdecode 1%positive IMREAD_COLOR) w1 = (Return None, w1)
  ∧ exec h (imread_unicode notes_path IMREAD_COLOR) world_notes
    = Run (Return None) w1 [Fromfile notes_path; Imdecode 1%positive IMREAD_COLOR]
  ∧ h (Fromfile empty_path) world_empty_file = (Return 1%positive, v1)
  ∧ h (Imdecode 1%positive IMREAD_COLOR) v1 = (Raise (CvError "!buf.empty()"), v1)
  ∧ exec h (imread_unicode empty_path IMREAD_COLOR) world_empty_file
    = Run (Raise (CvError "!buf.empty()")) v1
        [Fromfile empty_path; Imdecode 1%positive IMREAD_COLOR].
Proof.
  intros h w1 v1.
  assert (H1 : h (Fromfile notes_path) world_notes = (Return 1%positive, w1))
    by (vm_compute; reflexivity).
  assert (H2 : h (Imdecode 1%positive IMREAD_COLOR) w1 = (Return None, w1))
    by (vm_compute; reflexivity).
  assert (H3 : h (Fromfile empty_path) world_empty_file = (Return 1%positive, v1))
    by (vm_compute; reflexivity).
  assert (H4 : h (Imdecode 1%positive IMREAD_COLOR) v1
               = (Raise (CvError "!buf.empty()"), v1))
    by (vm_compute; reflexivity).
  split; [exact H1|]. split; [exact H2|]. split; [|split; [exact H3|split; [exact H4|]]].
  - exact (proj1 (imread_returns_decoder_sentinel h world_notes w1 notes_path
                    IMREAD_COLOR 1%positive H1) w1 H2).
  - exact (proj2 (imread_returns_decoder_sentinel h world_empty_file v1 empty_path
                    IMREAD_COLOR 1%positive H3) _ v1 H4).
Defined.

(** A write that goes through: the encoder reports success, [tofile]
    returns, and the value is [True]. *)
Lemma imwrite_returns_encoder_flag_witness :
  out (exec (handle Container.cv) (imwrite_unicode posix test_path 1%positive None)
         (world_with (zeros [10; 10; 3]%nat))) = Return true.
Proof.
  apply (imwrite_returns_encoder_flag posix (handle Container.cv)).
  exists 2%positive. eexists. split; [vm_compute; reflexivity|].
  intros _. eexists. vm_compute. reflexivity.
Defined.

(** [/tmp/.config] *)
Lemma imwrite_dotfile_gets_png_witness :
  splitext posix (of_ascii "/tmp/.config") = (of_ascii "/tmp/.config", [])
  ∧ calls (exec (handle Container.cv)
             (imwrite_unicode posix (of_ascii "/tmp/.config") 1%positive None)
             (world_with (zeros [10; 10; 3]%nat)))
    = [Imencode dot_png 1%positive [];
       Tofile 2%positive (of_ascii "/tmp/.config.png")].
Proof.
  assert (Hdir : of_ascii "/tmp/" = []
                 ∨ (∃ d s, of_ascii "/tmp/" = d ++ [s] ∧ is_sep posix s = true)).
  { right. exists (of_ascii "/tmp"), slash. split; reflexivity. }
  assert (Hname : Forall (fun c => c ≠ dot ∧ is_sep posix c = false) (of_ascii "config")).
  { repeat constructor; discriminate. }
  destruct (imwrite_dotfile_gets_png posix (handle Container.cv)
              (world_with (zeros [10; 10; 3]%nat)) (of_ascii "/tmp/") (of_ascii "config")
              1%positive None Hdir Hname)
    as (Hsp & _ & _ & Hw).
  split; [exact Hsp|].
  apply (Hw 2%positive
           (handle Container.cv (Imencode dot_png 1%positive [])
              (world_with (zeros [10; 10; 3]%nat))).2).
  vm_compute. reflexivity.
Defined.

(** After the repository's test has written its image: the caller's
    array is what it was, and two reads of [/tmp/テスト画像.png] return
    two new objects, each a 10 x 10 colour image. *)
Lemma wrappers_leave_image_alone_witness :
  let img := zeros [10; 10; 3]%nat in
  let h := handle Container.cv in
  let w := world_with img in
  let w1 := after (exec h (imwrite_unicode posix test_path 1%positive None) w) in
  let q := test_path ++ dot_png in
  let rd := exec h (imread_unicode q IMREAD_COLOR) w1 in
  let rd' := exec h (imread_unicode q IMREAD_COLOR) (after rd) in
  heap w1 !! 1%positive = Some img
  ∧ is_Some (files w1 !! q)
  ∧ ∃ r r', out rd = Return (Some r)
            ∧ heap w1 !! r = None
            ∧ heap (after rd) !! r = Some img
            ∧ out rd' = Return (Some r')
            ∧ r' ≠ r
            ∧ heap (after rd') !! r' = Some img
            ∧ heap (after rd') !! r = Some img
            ∧ heap (after rd') !! 1%positive = Some img.
Proof.
  intros img h w w1 q rd rd'.
  destruct (wrappers_leave_image_alone Container.cv posix w) as [Hwrite _].
  destruct (wrappers_leave_image_alone Container.cv posix w1) as [_ Hread].
  assert (Himg : heap w1 !! 1%positive = Some img).
  { unfold w1, h. rewrite Hwrite; [reflexivity|]. exists img. reflexivity. }
  assert (Hfile : files w1 !! q = Some (default [] (files w1 !! q)))
    by (vm_compute; reflexivity).
  assert (Hdec : decode Container.cv (default [] (files w1 !! q)) IMREAD_COLOR
                 = Return (Some img)) by (vm_compute; reflexivity).
  split; [exact Himg|]. split; [rewrite Hfile; eauto|].
  destruct (Hread q IMREAD_COLOR _ img Hfile Hdec)
    as (r & r' & Hout & Hnew & Hr & Hold & Hout' & Hne & Hr' & Hr2).
  exists r, r'. repeat (split; [assumption|]).
  destruct (wrappers_leave_image_alone Container.cv posix (after rd)) as [_ Hread'].
  destruct (Hread' q IMREAD_COLOR (default [] (files w1 !! q)) img)
    as (r2 & _ & _ & _ & _ & Hold2 & _); [|exact Hdec|].
  - vm_compute. reflexivity.
  - fold h in Hold2. fold rd' in Hold2. rewrite Hold2.
    + rewrite Hold; [exact Himg|]. rewrite Himg. eauto.
    + rewrite Hold; [rewrite Himg; eauto|]. rewrite Himg. eauto.
Defined.


(** ** Where the specification and the code part ways *)

(** C2, as stated, fails.  On a file system that refuses writes the
    encoder reports success for [/tmp/out.png], yet [imwrite_unicode]
    does not return [True]: [tofile] raises and the exception is the
    outcome of the call. *)
Lemma imwrite_raises_when_write_fails :
  let w := world_readonly (zeros [10; 10; 3]%nat) in
  let p := of_ascii "/tmp/out.png" in
  let enc := Imencode (effective_ext posix p) 1%positive [] in
  handle Container.cv enc w = (Return (true, 2%positive), (handle Container.cv enc w).2)
  ∧ out (exec (handle Container.cv) (imwrite_unicode posix p 1%positive None) w)
    = Raise (PermissionError p)
  ∧ out (exec (handle Container.cv) (imwrite_unicode posix p 1%positive None) w)
    ≠ Return true.
Proof.
  intros w p enc.
  assert (H : out (exec (handle Container.cv) (imwrite_unicode posix p 1%positive None) w)
              = Raise (PermissionError p)) by (vm_compute; reflexivity).
  split; [vm_compute; reflexivity|]. split; [exact H|].
  rewrite H. discriminate.
Qed.

(** C4, as stated, fails.  For [/tmp/out.xyz] the encode step fails, on
    an extension no encoder answers to, and the write is skipped; but
    the function does not return [False]: the encoder's exception is the
    outcome of the call. *)
Lemma imwrite_raises_on_unknown_extension :
  let w := world_with (zeros [10; 10; 3]%nat) in
  let p := of_ascii "/tmp/out.xyz" in
  let r := exec (handle Container.cv) (imwrite_unicode posix p 1%positive None) w in
  effective_ext posix p = of_ascii ".xyz"
  ∧ out r = Raise (CvError "could not find encoder for the specified extension")
  ∧ calls r = [Imencode (of_ascii ".xyz") 1%positive []]
  ∧ files (after r) = files w
  ∧ out r ≠ Return false.
Proof.
  intros w p r.
  assert (H : out r = Raise (CvError "could not find encoder for the specified extension"))
    by (vm_compute; reflexivity).
  split; [vm_compute; reflexivity|]. split; [exact H|].
  split; [vm_compute; reflexivity|]. split; [vm_compute; reflexivity|].
  rewrite H. discriminate.
Qed.

(** C6, as stated, fails.  [/tmp/empty.png] is a readable file and its
    bytes, none, are no image; [imread_unicode] does not return the
    sentinel: the decoder raises on the empty buffer and the exception
    is the outcome of the call. *)
Lemma imread_raises_on_empty_file :
  let h := handle Container.cv in
  let r := exec h (imread_unicode empty_path IMREAD_COLOR) world_empty_file in
  files world_empty_file !! empty_path = Some []
  ∧ (h (Fromfile empty_path) world_empty_file).1 = Return 1%positive
  ∧ out r = Raise (CvError "!buf.empty()")
  ∧ out r ≠ Return None.
Proof.
  intros h r.
  assert (H : out r = Raise (CvError "!buf.empty()")) by (vm_compute; reflexivity).
  split; [vm_compute; reflexivity|]. split; [vm_compute; reflexivity|].
  split; [exact H|]. rewrite H. discriminate.
Qed.


(** ** More on the extension split

    The lemmas of this part describe [os.path.splitext] as
    [imwrite_unicode] uses it, by the shape of the path: what comes back
    as the extension, and when. *)

Lemma splitext_unfold (os : flavour) (p : str) :
  splitext os p =
  let s := sep_index os p in
  let d := rfind p dot in
  match (if d >? s
         then skip_leading_dots p dot d (s + 1) (Z.to_nat (d - (s + 1)))
         else None) with
  | Some r => r
  | None => (p, [])
  end.
Proof. destruct os; reflexivity. Qed.

Lemma slice_single (p : str) (k : Z) (x : char) :
  0 <= k -> p !! Z.to_nat k = Some x -> slice p k (k + 1) = [x].
Proof.
  intros Hk Hx. unfold slice.
  replace (Z.to_nat (k + 1 - k)) with 1%nat by lia.
  rewrite (drop_S _ _ _ Hx). reflexivity.
Qed.

Lemma skip_leading_dots_some (p : str) (e : char) (d i : Z) (n : nat) (r : str * str) :
  skip_leading_dots p e d i n = Some r -> r = (slice_to p d, slice_from p d).
Proof.
  revert i. induction n as [|n IH]; intros i; simpl; [discriminate|].
  destruct (negb _); [congruence|apply IH].
Qed.

(** The loop returns the split as soon as one character of the range is
    not the dot. *)
Lemma skip_leading_dots_found (p : str) (e : char) (d i k : Z) (n : nat) (x : char) :
  0 <= i -> i <= k < i + Z.of_nat n -> p !! Z.to_nat k = Some x -> x ≠ e ->
  skip_leading_dots p e d i n = Some (slice_to p d, slice_from p d).
Proof.
  revert i. induction n as [|n IH]; intros i Hi Hk Hx Hne; [lia|].
  simpl. unfold Str.eqb. case_bool_decide as Hs; simpl; [|reflexivity].
  apply IH; try assumption; try lia.
  destruct (Z.eq_dec k i) as [->|Hki]; [|lia].
  rewrite (slice_single p i x Hi Hx) in Hs. congruence.
Qed.


Lemma rfind_app_absent (c : char) (a b : str) :
  Forall (fun x => x ≠ c) b -> rfind (a ++ b) c = rfind a c.
Proof.
  intros Hb. unfold rfind. rewrite rfind_from_app. apply rfind_from_absent, Hb.
Qed.

(** Past the last [c] there is no [c]. *)
Lemma rfind_after (c : char) (s : str) (n : nat) :
  rfind s c < Z.of_nat n -> Forall (fun x => x ≠ c) (drop n s).
Proof.
  intros Hn. destruct (rfind_spec c s) as [[_ Hall]|(Hr & _ & Hall)].
  - apply Forall_drop, Hall.
  - replace n with (S (Z.to_nat (rfind s c)) + (n - S (Z.to_nat (rfind s c))))%nat by lia.
    rewrite <- drop_drop. apply Forall_drop, Hall.
Qed.

Lemma not_sep_spec (os : flavour) (x : char) :
  is_sep os x = false ↔ x ≠ slash ∧ (os = nt -> x ≠ backslash).
Proof.
  destruct os; simpl.
  - rewrite N.eqb_neq. intuition discriminate.
  - rewrite orb_false_iff, !N.eqb_neq. intuition.
Qed.

Lemma sep_index_bounds (os : flavour) (p : str) :
  -1 <= sep_index os p < Z.of_nat (length p).
Proof.
  pose proof (rfind_lt_length slash p). pose proof (rfind_lt_length backslash p).
  destruct os; simpl; lia.
Qed.

Lemma sep_index_app_absent (os : flavour) (a b : str) :
  Forall (fun x => is_sep os x = false) b -> sep_index os (a ++ b) = sep_index os a.
Proof.
  intros Hb.
  assert (Hs : Forall (fun x => x ≠ slash) b).
  { eapply Forall_impl; [exact Hb|]. intros x Hx. apply not_sep_spec in Hx. tauto. }
  destruct os; simpl.
  - apply rfind_app_absent, Hs.
  - assert (Hbs : Forall (fun x => x ≠ backslash) b).
    { eapply Forall_impl; [exact Hb|]. intros x Hx. apply not_sep_spec in Hx.
      destruct Hx as [_ Hx]. apply Hx. reflexivity. }
    rewrite !rfind_app_absent by assumption. reflexivity.
Qed.

Lemma sep_index_snoc_sep (os : flavour) (d : str) (s : char) :
  is_sep os s = true -> sep_index os (d ++ [s]) = Z.of_nat (length d).
Proof.
  intros Hs. pose proof (rfind_lt_length slash d). pose proof (rfind_lt_length backslash d).
  destruct os; simpl in *; rewrite !rfind_snoc.
  - rewrite Hs. reflexivity.
  - destruct (N.eqb s backslash), (N.eqb s slash); try discriminate Hs; lia.
Qed.

(** Past the last separator there is no separator. *)
Lemma sep_index_after (os : flavour) (p : str) (n : nat) :
  sep_index os p < Z.of_nat n -> Forall (fun x => is_sep os x = false) (drop n p).
Proof.
  intros Hn.
  assert (Hs : Forall (fun x => x ≠ slash) (drop n p)).
  { apply rfind_after. destruct os; simpl in Hn; lia. }
  destruct os.
  - eapply Forall_impl; [exact Hs|]. intros x Hx. apply not_sep_spec.
    split; [exact Hx|discriminate].
  - assert (Hbs : Forall (fun x => x ≠ backslash) (drop n p)).
    { apply rfind_after. simpl in Hn. lia. }
    apply Forall_forall. intros x Hin. apply not_sep_spec. split.
    + eapply Forall_forall in Hs; eauto.
    + intros _. eapply Forall_forall in Hbs; eauto.
Qed.

(** The directory part of a path: empty, or ending in a separator. *)
Lemma sep_index_dir (os : flavour) (dir : str) :
  dir = [] ∨ (∃ d s, dir = d ++ [s] ∧ is_sep os s = true) ->
  sep_index os dir = Z.of_nat (length dir) - 1.
Proof.
  intros [->|(d & s & -> & Hs)].
  - destruct os; reflexivity.
  - rewrite sep_index_snoc_sep by exact Hs. rewrite length_app. simpl. lia.
Qed.

Section ExtensionShape.
Variable os : flavour.

(** An extension found by the split is a dot followed by characters that
    are neither dots nor separators. *)
Lemma splitext_ext_shape (p : str) :
  (splitext os p).2 = []
  ∨ ∃ rest, (splitext os p).2 = dot :: rest
            ∧ Forall (fun c => c ≠ dot ∧ is_sep os c = false) rest.
Proof.
  rewrite splitext_unfold. cbv zeta.
  pose proof (sep_index_bounds os p) as Hs.
  destruct (rfind p dot >? sep_index os p) eqn:Hgt; [|left; reflexivity].
  apply Z.gtb_lt in Hgt.
  destruct (skip_leading_dots _ _ _ _ _) as [r|] eqn:Hsk; [|left; reflexivity].
  apply skip_leading_dots_some in Hsk as ->. right. simpl. unfold slice_from.
  destruct (rfind_spec dot p) as [[Hr _]|(Hr & Hl & Hall)]; [lia|].
  exists (drop (S (Z.to_nat (rfind p dot))) p). split.
  - apply drop_S, Hl.
  - assert (Hsep := sep_index_after os p (S (Z.to_nat (rfind p dot))) ltac:(lia)).
    apply Forall_forall. intros x Hin. split.
    + eapply Forall_forall in Hall; eauto.
    + eapply Forall_forall in Hsep; eauto.
Qed.

(** A name with a character other than the dot, then a dot and a tail
    free of dots and separators: the tail with its dot is the extension. *)
Lemma splitext_recognises (a b e : str) (c : char) :
  c ≠ dot -> is_sep os c = false ->
  Forall (fun x => is_sep os x = false) b ->
  Forall (fun x => x ≠ dot ∧ is_sep os x = false) e ->
  splitext os ((a ++ c :: b) ++ dot :: e) = (a ++ c :: b, dot :: e).
Proof.
  intros Hc Hcs Hb He.
  set (stem := a ++ c :: b). set (p := stem ++ dot :: e).
  assert (Hd : rfind p dot = Z.of_nat (length stem)).
  { apply rfind_dot_dotfile. eapply Forall_impl; [exact He|]. intros x [Hx _]. exact Hx. }
  assert (Hs : sep_index os p = sep_index os a).
  { unfold p, stem. rewrite sep_index_app_absent.
    - apply sep_index_app_absent. constructor; assumption.
    - constructor; [destruct os; reflexivity|].
      eapply Forall_impl; [exact He|]. intros x [_ Hx]. exact Hx. }
  pose proof (sep_index_bounds os a) as Hsa.
  assert (Hlen : length stem = (length a + S (length b))%nat)
    by (unfold stem; rewrite length_app; reflexivity).
  rewrite splitext_unfold. cbv zeta. fold p. rewrite Hd, Hs.
  replace (_ >? _) with true by (symmetry; apply Z.gtb_lt; lia).
  rewrite (skip_leading_dots_found p dot _ _ (Z.of_nat (length a)) _ c);
    [|lia|lia| |exact Hc].
  - unfold slice_to, slice_from. rewrite Nat2Z.id. unfold p.
    rewrite take_app_length, drop_app_length. reflexivity.
  - rewrite Nat2Z.id. unfold p, stem. rewrite <- app_assoc. apply list_lookup_middle.
    reflexivity.
Qed.

(** A last component without dot: dots further up the path do not count. *)
Lemma splitext_dotless_name (dir name : str) :
  dir = [] ∨ (∃ d s, dir = d ++ [s] ∧ is_sep os s = true) ->
  Forall (fun c => c ≠ dot ∧ is_sep os c = false) name ->
  splitext os (dir ++ name) = (dir ++ name, []).
Proof.
  intros Hdir Hname.
  rewrite splitext_unfold. cbv zeta.
  rewrite sep_index_app_absent
    by (eapply Forall_impl; [exact Hname|]; intros x [_ Hx]; exact Hx).
  rewrite rfind_app_absent
    by (eapply Forall_impl; [exact Hname|]; intros x [Hx _]; exact Hx).
  rewrite (sep_index_dir os dir Hdir).
  pose proof (rfind_lt_length dot dir).
  replace (_ >? _) with false
    by (symmetry; rewrite Z.gtb_ltb; apply Z.ltb_ge; lia).
  reflexivity.
Qed.


End ExtensionShape.

(** ** The writer, by the shape of the path *)

Section WriterByPath.
Context {arr W E : Type}.
Variable os : flavour.
Variable h : handler arr W E.

(** For any path, what reaches the encoder and where [tofile] goes. *)
Lemma imwrite_calls (w : W) (p : str) (img : arr) (params : option (list Z)) :
  let r := exec h (imwrite_unicode os p img params) w in
  (∃ tl, calls r = Imencode (effective_ext os p) img (default [] params) :: tl)
  ∧ (∀ a f, Tofile a f ∈ calls r → f = effective_path os p).
Proof.
  cbv zeta. rewrite exec_imwrite_unicode. cbv zeta.
  destruct (h _ w) as [[[[] buf]|e] w1].
  - destruct (h _ w1) as [[u|e] w2]; simpl;
      (split; [eexists; reflexivity|tofile_in_trace]).
  - simpl. split; [eexists; reflexivity|tofile_in_trace].
  - simpl. split; [eexists; reflexivity|tofile_in_trace].
Qed.

(** X1.  Whatever the path, the extension [imwrite_unicode] hands to the
    encoder is a dot followed by characters that are neither dots nor
    separators, and the path it hands to [tofile] is the root of the
    split followed by that extension. *)
Theorem imwrite_ext_is_dotted (w : W) (p : str) (img : arr) (params : option (list Z)) :
  let r := exec h (imwrite_unicode os p img params) w in
  ∃ rest,
    Forall (fun c => c ≠ dot ∧ is_sep os c = false) rest
    ∧ (∃ tl, calls r = Imencode (dot :: rest) img (default [] params) :: tl)
    ∧ (∀ a f, Tofile a f ∈ calls r → f = (splitext os p).1 ++ dot :: rest).
Proof.
  cbv zeta. destruct (imwrite_calls w p img params) as [Henc Hwr].
  pose proof (splitext_join os p) as Hjoin.
  unfold effective_ext, effective_path in *.
  destruct (splitext_ext_shape os p) as [Hnil|(rest & Hext & Hrest)].
  - rewrite Hnil in *. cbn [truthy] in *. rewrite app_nil_r in Hjoin.
    exists (drop 1 dot_png). split; [|split].
    + repeat constructor; try discriminate; destruct os; reflexivity.
    + exact Henc.
    + rewrite Hjoin. exact Hwr.
  - rewrite Hext in *. cbn [truthy] in *. exists rest.
    split; [exact Hrest|]. split; [exact Henc|]. rewrite Hjoin. exact Hwr.
Qed.

(** X2.  A path that ends in a name with a character other than the dot,
    a dot, and a tail free of dots and separators has that dotted tail
    for extension: the encoder is chosen by it and the file is written
    at the path as given. *)
Theorem imwrite_recognises_extension (w : W) (a b e : str) (c : char) (img : arr)
    (params : option (list Z)) :
  c ≠ dot -> is_sep os c = false ->
  Forall (fun x => is_sep os x = false) b ->
  Forall (fun x => x ≠ dot ∧ is_sep os x = false) e ->
  let p := (a ++ c :: b) ++ dot :: e in
  let r := exec h (imwrite_unicode os p img params) w in
  splitext os p = (a ++ c :: b, dot :: e)
  ∧ (∃ tl, calls r = Imencode (dot :: e) img (default [] params) :: tl)
  ∧ (∀ x f, Tofile x f ∈ calls r → f = p).
Proof.
  intros Hc Hcs Hb He. cbv zeta.
  pose proof (splitext_recognises os a b e c Hc Hcs Hb He) as Hsp.
  split; [exact Hsp|].
  destruct (imwrite_calls w ((a ++ c :: b) ++ dot :: e) img params) as [Henc Hwr].
  unfold effective_ext, effective_path in *. rewrite Hsp in *. exact (conj Henc Hwr).
Qed.

(** X3.  Dots in directory names do not make an extension: when the last
    component of the path has no dot, the encoder is asked for [".png"]
    and the file is written at the path with [".png"] appended. *)
Theorem imwrite_ignores_directory_dots (w : W) (dir name : str) (img : arr)
    (params : option (list Z)) :
  dir = [] ∨ (∃ d s, dir = d ++ [s] ∧ is_sep os s = true) ->
  Forall (fun c => c ≠ dot ∧ is_sep os c = false) name ->
  let p := dir ++ name in
  let r := exec h (imwrite_unicode os p img params) w in
  splitext os p = (p, [])
  ∧ (∃ tl, calls r = Imencode dot_png img (default [] params) :: tl)
  ∧ (∀ a f, Tofile a f ∈ calls r → f = p ++ dot_png).
Proof.
  intros Hdir Hname. cbv zeta.
  pose proof (splitext_dotless_name os dir name Hdir Hname) as Hsp.
  split; [exact Hsp|].
  destruct (imwrite_without_ext_trace os h w (dir ++ name) img params) as (He & Hw & _).
  { rewrite Hsp. reflexivity. }
  exact (conj He Hw).
Qed.


End WriterByPath.

(** X5.  When the last component of the path has a character other than
    the dot, the path [imwrite_unicode] writes to is one it would leave
    alone: called on that path, it is the same program as on the
    original one. *)
Theorem imwrite_effective_path_is_fixed {arr : Type} (os : flavour) (a b : str)
    (c : char) (img : arr) (params : option (list Z)) :
  c ≠ dot -> is_sep os c = false ->
  Forall (fun x => is_sep os x = false) b ->
  let p := a ++ c :: b in
  imwrite_unicode os (effective_path os p) img params = imwrite_unicode os p img params.
Proof.
  intros Hc Hcs Hb. cbv zeta.
  rewrite !imwrite_unicode_unfold.
  assert (Hfix : effective_ext os (effective_path os (a ++ c :: b))
                 = effective_ext os (a ++ c :: b)
                 ∧ effective_path os (effective_path os (a ++ c :: b))
                   = effective_path os (a ++ c :: b)).
  { destruct (truthy (splitext os (a ++ c :: b)).2) eqn:Ht.
    - assert (Hp : effective_path os (a ++ c :: b) = a ++ c :: b)
        by (unfold effective_path; rewrite Ht; reflexivity).
      rewrite Hp. split; [reflexivity|exact Hp].
    - assert (Hp : effective_path os (a ++ c :: b) = (a ++ c :: b) ++ dot_png)
        by (unfold effective_path; rewrite Ht; reflexivity).
      assert (Hsp : splitext os ((a ++ c :: b) ++ dot_png) = (a ++ c :: b, dot_png)).
      { change dot_png with (dot :: drop 1 dot_png).
        apply splitext_recognises; try assumption.
        repeat constructor; try discriminate; destruct os; reflexivity. }
      rewrite Hp. unfold effective_ext, effective_path. rewrite Hsp, Ht.
      cbn. split; reflexivity. }
  destruct Hfix as [-> ->]. reflexivity.
Qed.

(** ** Outcomes, by what the primitives answer *)

Section Outcomes.
Context {arr W E : Type}.
Variable os : flavour.
Variable h : handler arr W E.

(** X6.  [imwrite_unicode] raises [e] exactly when the encoder raises [e],
    or the encoder reports success and [tofile] raises [e]; a failure
    flag from the encoder never raises.  When it is the encoder that
    raises, the encoder call is the whole run: nothing is written. *)
Theorem imwrite_raises_only_from_primitives (w : W) (p : str) (img : arr)
    (params : option (list Z)) (e : E) :
  let enc := Imencode (effective_ext os p) img (default [] params) in
  (out (exec h (imwrite_unicode os p img params) w) = Raise e
   ↔ (∃ w1, h enc w = (Raise e, w1))
     ∨ (∃ buf w1 w2, h enc w = (Return (true, buf), w1)
                     ∧ h (Tofile buf (effective_path os p)) w1 = (Raise e, w2)))
  ∧ (∀ w1, h enc w = (Raise e, w1) ->
       exec h (imwrite_unicode os p img params) w = Run (Raise e) w1 [enc]).
Proof.
  cbv zeta. rewrite exec_imwrite_unicode. cbv zeta.
  destruct (h _ w) as [[[[] buf]|e'] w1] eqn:Henc.
  - destruct (h _ w1) as [[u|e'] w2] eqn:Hwr; simpl; (split; [split|]).
    + discriminate.
    + intros [(w1' & [=])|(buf' & w1' & w2' & [= <- <-] & Hw)].
      rewrite Hwr in Hw. discriminate.
    + intros w1' [=].
    + intros [= ->]. right. exists buf, w1, w2. split; [reflexivity|exact Hwr].
    + intros [(w1' & [=])|(buf' & w1' & w2' & [= <- <-] & Hw)].
      rewrite Hwr in Hw. congruence.
    + intros w1' [=].
  - simpl. split; [split|].
    + discriminate.
    + intros [(w1' & [=])|(buf' & w1' & w2' & [=] & _)].
    + intros w1' [=].
  - simpl. split; [split|].
    + intros [= ->]. left. exists w1. reflexivity.
    + intros [(w1' & [= -> _])|(buf' & w1' & w2' & [=] & _)]. reflexivity.
    + intros w1' [= -> ->]. reflexivity.
Qed.

(** X7.  [imread_unicode] returns [r] exactly when the file can be read
    and the decoder, given the buffer read and the caller's [flags],
    answers [r]; it raises [e] exactly when the read raises [e], or the
    read succeeds and the decoder raises [e]. *)
Theorem imread_outcome (w : W) (p : str) (flags : Z) :
  (∀ r, out (exec h (imread_unicode p flags) w) = Return r
        ↔ ∃ buf w1 w2, h (Fromfile p) w = (Return buf, w1)
                       ∧ h (Imdecode buf flags) w1 = (Return r, w2))
  ∧ (∀ e, out (exec h (imread_unicode p flags) w) = Raise e
          ↔ (∃ w1, h (Fromfile p) w = (Raise e, w1))
            ∨ (∃ buf w1 w2, h (Fromfile p) w = (Return buf, w1)
                            ∧ h (Imdecode buf flags) w1 = (Raise e, w2))).
Proof.
  rewrite exec_imread_unicode.
  destruct (h _ w) as [[buf|e'] w1] eqn:Hrd.
  - cbv zeta. destruct (h _ w1) as [[r'|e'] w2] eqn:Hdec; simpl; split.
    + intros r. split.
      * intros [= ->]. exists buf, w1, w2. split; [reflexivity|exact Hdec].
      * intros (buf' & w1' & w2' & [= <- <-] & Hd). pose proof (eq_trans (eq_sym Hdec) Hd) as Heq. congruence.
    + intros e. split; [discriminate|].
      intros [(w1' & [=])|(buf' & w1' & w2' & [= <- <-] & Hd)].
      pose proof (eq_trans (eq_sym Hdec) Hd) as Heq. discriminate Heq.
    + intros r. split; [discriminate|].
      intros (buf' & w1' & w2' & [= <- <-] & Hd). pose proof (eq_trans (eq_sym Hdec) Hd) as Heq. discriminate Heq.
    + intros e. split.
      * intros [= ->]. right. exists buf, w1, w2. split; [reflexivity|exact Hdec].
      * intros [(w1' & [=])|(buf' & w1' & w2' & [= <- <-] & Hd)].
        pose proof (eq_trans (eq_sym Hdec) Hd) as Heq. congruence.
  - simpl. split.
    + intros r. split; [discriminate|]. intros (buf' & w1' & w2' & [=] & _).
    + intros e. split.
      * intros [= ->]. left. exists w1. reflexivity.
      * intros [(w1' & [= -> _])|(buf' & w1' & w2' & [=] & _)]. reflexivity.
Qed.

End Outcomes.

(** X8.  In the reference world, a file written under a path without
    extension is not at that path: if nothing was there before the call
    of [imwrite_unicode], reading the path as given still raises
    [FileNotFoundError], whatever the outcome of the write. *)
Theorem read_of_original_path_fails (cd : codec) (os : flavour) (w : world) (p : str)
    (img : positive) (params : option (list Z)) (flags : Z) :
  (splitext os p).2 = [] ->
  files w !! p = None ->
  let w1 := after (exec (handle cd) (imwrite_unicode os p img params) w) in
  exec (handle cd) (imread_unicode p flags) w1
  = Run (Raise (FileNotFoundError p)) w1 [Fromfile p].
Proof.
  intros Hext Hnone. cbv zeta.
  assert (Hq : p ≠ effective_path os p).
  { unfold effective_path. rewrite Hext. cbn [truthy].
    intros Heq. apply (f_equal length) in Heq. rewrite length_app in Heq.
    simpl in Heq. lia. }
  pose proof (imwrite_touches_one_file cd os w p p img params Hq) as Hfile.
  rewrite Hnone in Hfile.
  rewrite exec_imread_unicode. cbn [handle]. unfold fromfile. rewrite Hfile.
  reflexivity.
Qed.

(** ** Characters that are not special

    The split looks at dots and separators only.  Any renaming of
    characters that keeps those three in place and maps nothing else onto
    them (replacing non-ASCII characters by ASCII ones, say) goes through
    the split unchanged. *)

Section Renaming.
Variable f : char -> char.
Hypothesis f_dot : ∀ x, f x = dot ↔ x = dot.
Hypothesis f_slash : ∀ x, f x = slash ↔ x = slash.
Hypothesis f_backslash : ∀ x, f x = backslash ↔ x = backslash.

Lemma rfind_from_fmap (c : char) (s : str) (i last : Z) :
  (∀ x, f x = c ↔ x = c) ->
  rfind_from c (f <$> s) i last = rfind_from c s i last.
Proof.
  intros Hc. revert i last. induction s as [|x s IH]; intros i last; [reflexivity|].
  rewrite fmap_cons. cbn [rfind_from]. rewrite IH.
  replace (N.eqb (f x) c) with (N.eqb x c); [reflexivity|].
  destruct (N.eqb x c) eqn:Hx; symmetry.
  - apply N.eqb_eq. apply (proj2 (Hc x)). apply N.eqb_eq, Hx.
  - apply N.eqb_neq. intros Hfx. apply (proj1 (Hc x)) in Hfx.
    apply N.eqb_neq in Hx. contradiction.
Qed.

Lemma sep_index_fmap (os : flavour) (s : str) :
  sep_index os (f <$> s) = sep_index os s.
Proof.
  destruct os; unfold sep_index, rfind; rewrite !rfind_from_fmap; auto.
Qed.

Lemma is_dot_fmap (s : str) : Str.eqb (f <$> s) [dot] = Str.eqb s [dot].
Proof.
  unfold Str.eqb. destruct s as [|x [|y s]].
  - reflexivity.
  - rewrite fmap_cons, fmap_nil.
    destruct (bool_decide ([x] = [dot])) eqn:Hx.
    + apply bool_decide_eq_true in Hx. injection Hx as ->.
      apply bool_decide_eq_true. f_equal. apply (proj2 (f_dot dot)). reflexivity.
    + apply bool_decide_eq_false in Hx. apply bool_decide_eq_false.
      intros [= Hfx]. apply (proj1 (f_dot x)) in Hfx. congruence.
  - rewrite !fmap_cons, !bool_decide_eq_false_2 by discriminate. reflexivity.
Qed.

Lemma skip_leading_dots_fmap (p : str) (d i : Z) (n : nat) :
  skip_leading_dots (f <$> p) dot d i n
  = (fun r : str * str => (f <$> r.1, f <$> r.2)) <$> skip_leading_dots p dot d i n.
Proof.
  revert i. induction n as [|n IH]; intros i; [reflexivity|].
  simpl. unfold slice. rewrite <- fmap_drop, <- fmap_take, is_dot_fmap.
  destruct (negb _).
  - simpl. unfold slice_to, slice_from. rewrite fmap_take, fmap_drop. reflexivity.
  - apply IH.
Qed.

(** X9.  [os.path.splitext] commutes with the renaming, so
    [imwrite_unicode] appends [".png"] to the renamed path exactly when
    it does to the original one, and otherwise hands the encoder the
    renamed extension. *)
Theorem splitext_ignores_ordinary_characters {arr W E : Type} (os : flavour)
    (h : handler arr W E) (w : W) (p : str) (img : arr) (params : option (list Z)) :
  splitext os (f <$> p) = (f <$> (splitext os p).1, f <$> (splitext os p).2)
  ∧ effective_path os (f <$> p)
    = (f <$> p) ++ (if truthy (splitext os p).2 then [] else dot_png)
  ∧ ∃ tl, calls (exec h (imwrite_unicode os (f <$> p) img params) w)
          = Imencode (if truthy (splitext os p).2
                      then f <$> (splitext os p).2 else dot_png)
              img (default [] params) :: tl.
Proof.
  assert (Hsp : splitext os (f <$> p)
                = (f <$> (splitext os p).1, f <$> (splitext os p).2)).
  { rewrite !splitext_unfold. cbv zeta.
    assert (Hd : rfind (f <$> p) dot = rfind p dot)
      by (apply rfind_from_fmap, f_dot).
    rewrite sep_index_fmap, Hd.
    destruct (rfind p dot >? sep_index os p); [|reflexivity].
    rewrite skip_leading_dots_fmap.
    destruct (skip_leading_dots p dot _ _ _) as [[r e]|]; reflexivity. }
  assert (Ht : truthy (f <$> (splitext os p).2) = truthy (splitext os p).2)
    by (destruct (splitext os p).2; reflexivity).
  split; [exact Hsp|]. split.
  - unfold effective_path. rewrite Hsp. cbn [snd]. rewrite Ht.
    destruct (truthy (splitext os p).2); [symmetry; apply app_nil_r|reflexivity].
  - destruct (imwrite_calls os h w (f <$> p) img params) as [Henc _].
    unfold effective_ext in Henc. rewrite Hsp in Henc. cbn [snd] in Henc.
    rewrite Ht in Henc. exact Henc.
Qed.

End Renaming.

(** ** The path-shape theorems at work *)

(** [/tmp/a.b/photo.png]: the extension is [".png"], the dot of the
    directory notwithstanding. *)
Lemma imwrite_recognises_extension_witness :
  (112%N : char) ≠ dot
  ∧ is_sep posix 112%N = false
  ∧ Forall (fun x => is_sep posix x = false) (of_ascii "hoto")
  ∧ Forall (fun x => x ≠ dot ∧ is_sep posix x = false) (of_ascii "png")
  ∧ splitext posix (of_ascii "/tmp/a.b/photo.png") = (of_ascii "/tmp/a.b/photo", dot_png).
Proof.
  assert (H1 : (112%N : char) ≠ dot) by discriminate.
  assert (H2 : is_sep posix 112%N = false) by reflexivity.
  assert (H3 : Forall (fun x => is_sep posix x = false) (of_ascii "hoto"))
    by (repeat constructor).
  assert (H4 : Forall (fun x => x ≠ dot ∧ is_sep posix x = false) (of_ascii "png"))
    by (repeat constructor; discriminate).
  repeat (split; [assumption|]).
  exact (proj1 (imwrite_recognises_extension posix (handle Container.cv)
                  (world_with (zeros [10; 10; 3]%nat)) (of_ascii "/tmp/a.b/")
                  (of_ascii "hoto") (of_ascii "png") 112%N 1%positive None
                  H1 H2 H3 H4)).
Defined.

(** [/tmp/a.b/c] has no extension. *)
Lemma imwrite_ignores_directory_dots_witness :
  (of_ascii "/tmp/a.b/" = []
   ∨ (∃ d s, of_ascii "/tmp/a.b/" = d ++ [s] ∧ is_sep posix s = true))
  ∧ Forall (fun c => c ≠ dot ∧ is_sep posix c = false) (of_ascii "c")
  ∧ splitext posix (of_ascii "/tmp/a.b/c") = (of_ascii "/tmp/a.b/c", []).
Proof.
  assert (Hdir : of_ascii "/tmp/a.b/" = []
                 ∨ (∃ d s, of_ascii "/tmp/a.b/" = d ++ [s] ∧ is_sep posix s = true)).
  { right. exists (of_ascii "/tmp/a.b"), slash. split; reflexivity. }
  assert (Hname : Forall (fun c => c ≠ dot ∧ is_sep posix c = false) (of_ascii "c"))
    by (repeat constructor; discriminate).
  split; [exact Hdir|]. split; [exact Hname|].
  exact (proj1 (imwrite_ignores_directory_dots posix (handle Container.cv)
                  (world_with (zeros [10; 10; 3]%nat)) (of_ascii "/tmp/a.b/")
                  (of_ascii "c") 1%positive None Hdir Hname)).
Defined.


(** The path of the repository's test: writing to [/tmp/テスト画像.png] is
    the same program as writing to [/tmp/テスト画像]. *)
Lemma imwrite_effective_path_is_fixed_witness :
  (20687%N : char) ≠ dot
  ∧ is_sep posix 20687%N = false
  ∧ imwrite_unicode posix (test_path ++ dot_png) 1%positive None
    = imwrite_unicode posix test_path 1%positive None.
Proof.
  assert (H1 : (20687%N : char) ≠ dot) by discriminate.
  assert (H2 : is_sep posix 20687%N = false) by reflexivity.
  split; [exact H1|]. split; [exact H2|].
  exact (imwrite_effective_path_is_fixed posix
           (of_ascii "/tmp/" ++ [12486; 12473; 12488; 30011]%N) [] 20687%N
           1%positive None H1 H2 (Forall_nil_2 _)).
Defined.

(** After the repository's test has written its image, [/tmp/テスト画像]
    itself is still not a file. *)
Lemma read_of_original_path_fails_witness :
  let w := world_with (zeros [10; 10; 3]%nat) in
  let w1 := after (exec (handle Container.cv)
                     (imwrite_unicode posix test_path 1%positive None) w) in
  (splitext posix test_path).2 = []
  ∧ files w !! test_path = None
  ∧ exec (handle Container.cv) (imread_unicode test_path IMREAD_COLOR) w1
    = Run (Raise (FileNotFoundError test_path)) w1 [Fromfile test_path].
Proof.
  intros w w1.
  assert (H1 : (splitext posix test_path).2 = []) by (vm_compute; reflexivity).
  assert (H2 : files w !! test_path = None) by (vm_compute; reflexivity).
  split; [exact H1|]. split; [exact H2|].
  exact (read_of_original_path_fails Container.cv posix w test_path 1%positive None
           IMREAD_COLOR H1 H2).
Defined.

(** Replacing every non-ASCII character by [x]: [/tmp/テスト画像] and
    [/tmp/xxxxx] split alike. *)
Lemma splitext_ignores_ordinary_characters_witness :
  let f := fun x : char => if (x <? 128)%N then x else 120%N in
  (∀ x, f x = dot ↔ x = dot)
  ∧ (∀ x, f x = slash ↔ x = slash)
  ∧ (∀ x, f x = backslash ↔ x = backslash)
  ∧ f <$> test_path = of_ascii "/tmp/xxxxx"
  ∧ splitext posix (of_ascii "/tmp/xxxxx")
    = (f <$> (splitext posix test_path).1, f <$> (splitext posix test_path).2).
Proof.
  intros f.
  assert (Hf : ∀ c : char, (c < 120)%N -> ∀ x, f x = c ↔ x = c).
  { intros c Hc x. unfold f. destruct (N.ltb_spec x 128); lia. }
  assert (H1 : ∀ x, f x = dot ↔ x = dot) by (apply Hf; reflexivity).
  assert (H2 : ∀ x, f x = slash ↔ x = slash) by (apply Hf; reflexivity).
  assert (H3 : ∀ x, f x = backslash ↔ x = backslash) by (apply Hf; reflexivity).
  repeat (split; [assumption|]). split; [reflexivity|].
  exact (proj1 (splitext_ignores_ordinary_characters f H1 H2 H3 posix
                  (handle Container.cv) (world_with (zeros [10; 10; 3]%nat))
                  test_path 1%positive None)).
Defined.

(** ** When is [".png"] appended? *)


Section AppendCriterion.
Context {arr W E : Type}.
Variable os : flavour.
Variable h : handler arr W E.



End AppendCriterion.

